(** * Andersson trees (jsw_atree): a shallow embedding and its properties

    The development follows [src/jsw_atree/jsw_atree.c].

    Representation.  A [jsw_anode_t] is a node of the inductive type
    [jsw_anode];
    the per-tree sentinel [tree->nil] (level 0, both links to itself, data
    NULL) is the constructor [Nil], and the accessors [level], [link] and
    [data] return for it exactly what the sentinel's fields hold.  Items
    ([void *] that are not NULL) are the values of an abstract type [E]; a
    [void *] result that may be NULL is an [option E].

    Pointers are modelled by position.  The C code keeps an array [path] of
    node pointers and recovers the side on which a child hangs with the
    comparison [path[top - 1]->link[1] == path[top]]; in a tree every real
    node hangs off one link of one parent, so a path is a list (top of the
    stack first) of pairs [(node, dir)]: the node visited and the link that
    was followed from it.  Writing [p->link[dir] = c] is [set_link p dir c];
    no statement of the code writes to the sentinel.
    The array has HEIGHT_LIMIT = 64 slots and the lists here are not
    bounded: [paths_fit] shows that the paths on a tree built by the code
    stay within the array while the tree has fewer than 2^32 - 1 nodes.

    Numbers.  [level] is an [int] that the code increments and decrements
    unchecked; it stays between 0 and the height of the tree and is a [Z].
    [size] is a [size_t] (64 bits), a [Z] reduced modulo [size_modulus] by
    the increment and the decrement.

    Effects.  [malloc] may fail: the functions that allocate take the outcome
    of the allocation as a [bool].  Calls of the user's [rel] and of [free]
    on nodes are recorded in the tree record ([released], [freed]). *)

From Stdlib Require Import Strings.Ascii Strings.String DecimalString
  DecimalNat.
From Stdlib Require Import ZArith List Bool Lia Sorting.Sorted.
From Equations Require Import Equations.
Import ListNotations.
Local Open Scope Z_scope.

Set Implicit Arguments.

(** Integers as items, for the examples: [zcmp] has the sign of [x - y], a
    clone is the integer itself. *)
Definition zcmp (x y : Z) : Z :=
  match x ?= y with
  | Lt => -1
  | Eq => 0
  | Gt => 1
  end.

Definition zdup (x : Z) : Z := x.

(** Strings as items, for the test of the tree ([src/test/test-atree.c]): a
    [string] is the bytes of a C string before its terminator.  [strcmp]
    returns the difference of the first two bytes that differ, as unsigned
    chars, the end of a string counting as the byte 0; the C standard fixes
    the sign of the result only, and only the sign is used.  [strdup]
    allocates and copies: [malloc_ok] is the outcome of its allocation, the
    result is NULL ([None]) when that fails and otherwise the copy
    [strdup_copy s], which has the bytes of [s].  [snprintf_u j] is the
    text [snprintf ( item, sizeof (item), "%u", j )] writes. *)
Fixpoint strcmp (s1 s2 : string) : Z :=
  match s1, s2 with
  | EmptyString, EmptyString => 0
  | EmptyString, String c2 _ => 0 - Z.of_N (N_of_ascii c2)
  | String c1 _, EmptyString => Z.of_N (N_of_ascii c1)
  | String c1 r1, String c2 r2 =>
      if (N_of_ascii c1 =? N_of_ascii c2)%N
      then if (N_of_ascii c1 =? 0)%N then 0 else strcmp r1 r2
      else Z.of_N (N_of_ascii c1) - Z.of_N (N_of_ascii c2)
  end.

Definition strdup_copy (s : string) : string := s.

Definition strdup (malloc_ok : bool) (s : string) : option string :=
  if malloc_ok then Some (strdup_copy s) else None.

Definition snprintf_u (j : nat) : string :=
  NilEmpty.string_of_uint (Nat.to_uint j).

(** A call on a tree: an insertion, with the outcome of its allocation, or an
    erasure. *)
Inductive op (E : Type) : Type :=
| Insert (malloc_ok : bool) (x : E)
| Erase (x : E).

(** "5", "3", "8", "1", "4" inserted in that order, then "3" erased. *)
Definition scenario : list (op Z) :=
  [Insert true 5; Insert true 3; Insert true 8; Insert true 1; Insert true 4;
   Erase 3].

Definition three : list (op Z) :=
  [Insert true 1; Insert true 2; Insert true 3].

Section ATree.

Variable E : Type.
(** [cmp_f] and [dup_f] of the tree ([rel_f] is recorded, see [released]). *)
Variable cmp : E -> E -> Z.
Variable dup : E -> E.

(** ** Nodes *)

Inductive jsw_anode : Type :=
| Nil : jsw_anode
| Node : Z -> E -> jsw_anode -> jsw_anode -> jsw_anode.

Definition is_nil (t : jsw_anode) : bool :=
  match t with Nil => true | Node _ _ _ _ => false end.

Definition level (t : jsw_anode) : Z :=
  match t with Nil => 0 | Node lv _ _ _ => lv end.

Definition data (t : jsw_anode) : option E :=
  match t with Nil => None | Node _ x _ _ => Some x end.

(** [link t false] is [t->link[0]], [link t true] is [t->link[1]]. *)
Definition link (t : jsw_anode) (dir : bool) : jsw_anode :=
  match t with
  | Nil => Nil
  | Node _ _ l r => if dir then r else l
  end.

Definition set_link (t : jsw_anode) (dir : bool) (c : jsw_anode)
  : jsw_anode :=
  match t with
  | Nil => Nil
  | Node lv x l r => if dir then Node lv x l c else Node lv x c r
  end.

Definition set_level (t : jsw_anode) (lv : Z) : jsw_anode :=
  match t with
  | Nil => Nil
  | Node _ x l r => Node lv x l r
  end.

(** [it->data = heir->data] *)
Definition set_data (t : jsw_anode) (d : option E) : jsw_anode :=
  match t, d with
  | Node lv _ l r, Some x => Node lv x l r
  | _, _ => t
  end.

(** ** The rebalancing macros *)

(** Remove left horizontal links *)
Definition skew (t : jsw_anode) : jsw_anode :=
  if (level (link t false) =? level t) && negb (level t =? 0) then
    let save := link t false in
    let t := set_link t false (link save true) in
    set_link save true t
  else t.

(** Remove consecutive horizontal links *)
Definition split (t : jsw_anode) : jsw_anode :=
  if (level (link (link t true) true) =? level t) && negb (level t =? 0) then
    let save := link t true in
    let t := set_link t true (link save false) in
    let t := set_link save false t in
    set_level t (level t + 1)
  else t.

(** [malloc_ok = false] is the case [rn == NULL]. *)
Definition new_node (malloc_ok : bool) (x : E) : jsw_anode :=
  if malloc_ok then Node 1 (dup x) Nil Nil else Nil.

(** ** The tree *)

Definition size_modulus : Z := 2 ^ 64.

Record jsw_atree : Type := mk_atree {
  root : jsw_anode;
  size : Z;
  released : list E;   (* arguments of the calls of [rel], oldest first *)
  freed : nat          (* number of nodes passed to [free] *)
}.

Definition set_root (tree : jsw_atree) (r : jsw_anode) : jsw_atree :=
  mk_atree r (size tree) (released tree) (freed tree).

Definition incr_size (tree : jsw_atree) : jsw_atree :=
  mk_atree (root tree) ((size tree + 1) mod size_modulus)
           (released tree) (freed tree).

Definition decr_size (tree : jsw_atree) : jsw_atree :=
  mk_atree (root tree) ((size tree - 1) mod size_modulus)
           (released tree) (freed tree).

(** [tree->rel ( n->data ); free ( n );] *)
Definition rel_data (tree : jsw_atree) (n : jsw_anode) : jsw_atree :=
  mk_atree (root tree) (size tree)
           (released tree ++ match data n with Some x => [x] | None => [] end)
           (freed tree).

Definition free_node (tree : jsw_atree) : jsw_atree :=
  mk_atree (root tree) (size tree) (released tree) (S (freed tree)).

Definition jsw_anew : jsw_atree := mk_atree Nil 0 [] 0.

Definition jsw_asize (tree : jsw_atree) : Z := size tree.

(** ** Lookup *)

Fixpoint afind_loop (it : jsw_anode) (x : E) : jsw_anode :=
  match it with
  | Nil => Nil
  | Node _ y l r =>
      let c := cmp y x in
      if c =? 0 then it
      else afind_loop (if c <? 0 then r else l) x
  end.

Definition jsw_afind (tree : jsw_atree) (x : E) : option E :=
  data (afind_loop (root tree) x).

(** ** Insertion *)

Definition path_t : Type := list (jsw_anode * bool).

(** Find a spot and save the path *)
Fixpoint insert_path (it : jsw_anode) (x : E) (path : path_t) : path_t :=
  match it with
  | Nil => path
  | Node _ y l r =>
      let dir := cmp y x <? 0 in
      let next := if dir then r else l in
      if is_nil next then (it, dir) :: path
      else insert_path next x ((it, dir) :: path)
  end.

(** The links of the nodes of a path as they are once the deepest one has
    been given [child]: no macro applied. *)
Fixpoint relink (path : path_t) (child : jsw_anode) : jsw_anode :=
  match path with
  | [] => child
  | (p, dir) :: up => relink up (set_link p dir child)
  end.

(** Walk back and rebalance *)
Fixpoint insert_rebalance (path : path_t) (child : jsw_anode) : jsw_anode :=
  match path with
  | [] => child
  | (p, dir) :: up =>
      insert_rebalance up (split (skew (set_link p dir child)))
  end.

Definition jsw_ainsert (malloc_ok : bool) (tree : jsw_atree) (x : E)
  : jsw_atree * Z :=
  if is_nil (root tree) then
    (* Empty tree case *)
    let rn := new_node malloc_ok x in
    if is_nil rn then (set_root tree rn, 0)
    else (incr_size (set_root tree rn), 1)
  else
    let path := insert_path (root tree) x [] in
    (* Create a new item *)
    let rn := new_node malloc_ok x in
    if is_nil rn then (set_root tree (relink path rn), 0)
    else (incr_size (set_root tree (insert_rebalance path rn)), 1).

(** ** Erasure *)

(** Find node to remove and save path: the node found and its ancestors. *)
Fixpoint erase_path (it : jsw_anode) (x : E) (path : path_t)
  : option (jsw_anode * path_t) :=
  match it with
  | Nil => None
  | Node _ y l r =>
      let c := cmp y x in
      if c =? 0 then Some (it, path)
      else
        let dir := c <? 0 in
        erase_path (if dir then r else l) x ((it, dir) :: path)
  end.

(** [while ( heir->link[0] != tree->nil )] *)
Fixpoint heir_path (heir : jsw_anode) (path : path_t) : jsw_anode * path_t :=
  match heir with
  | Nil => (Nil, path)
  | Node _ _ l _ =>
      if is_nil l then (heir, path)
      else heir_path l ((heir, false) :: path)
  end.

(** Rebalance (aka. black magic) *)
Definition erase_fixup (up : jsw_anode) : jsw_anode :=
  if (level (link up false) <? level up - 1)
     || (level (link up true) <? level up - 1)
  then
    let up := set_level up (level up - 1) in
    let up :=
      if level (link up true) >? level up
      then set_link up true (set_level (link up true) (level up))
      else up in
    (* Order is important! *)
    let up := skew up in
    let up := set_link up true (skew (link up true)) in
    let up :=
      set_link up true
        (set_link (link up true) true (skew (link (link up true) true))) in
    let up := split up in
    set_link up true (split (link up true))
  else up.

(** Walk back up and rebalance *)
Fixpoint erase_rebalance (path : path_t) (child : jsw_anode) : jsw_anode :=
  match path with
  | [] => child
  | (p, dir) :: up =>
      erase_rebalance up (erase_fixup (set_link p dir child))
  end.

(** Remove the found node: the path that is left to walk back, and the
    subtree that takes the place of the node unlinked ([it] in the single
    child case, [heir] in the two child case). *)
Definition erase_unlink (it : jsw_anode) (path : path_t) : path_t * jsw_anode :=
  if is_nil (link it false) || is_nil (link it true) then
    (* Single child case *)
    let dir2 := is_nil (link it false) in
    (path,
     match path with
     | [] => link it true
     | _ :: _ => link it dir2
     end)
  else
    (* Two child case *)
    let '(heir, hpath) := heir_path (link it true) [] in
    (hpath ++ (set_data it (data heir), true) :: path, link heir true).

Definition jsw_aerase (tree : jsw_atree) (x : E) : jsw_atree * Z :=
  if is_nil (root tree) then (tree, 0)
  else
    match erase_path (root tree) x [] with
    | None => (tree, 0)
    | Some (it, path) =>
        let '(path, child) := erase_unlink it path in
        let tree := free_node (rel_data tree it) in
        (decr_size (set_root tree (erase_rebalance path child)), 1)
    end.

(** ** Destruction by rotation *)

Fixpoint weight (t : jsw_anode) : nat :=
  match t with
  | Nil => O
  | Node _ _ l r => S (2 * weight l + weight r)
  end.

Equations? adelete_loop (it : jsw_anode) (tree : jsw_atree) : jsw_atree
  by wf (weight it) lt :=
  adelete_loop Nil tree := tree;
  adelete_loop (Node lv x Nil r) tree :=
    (* Remove node *)
    adelete_loop r (free_node (rel_data tree (Node lv x Nil r)));
  adelete_loop (Node lv x (Node llv y ll lr) r) tree :=
    (* Rotate right *)
    adelete_loop (Node llv y ll (Node lv x lr r)) tree.
Proof. all: simpl; lia. Qed.

(** The record after [jsw_adelete]: nothing is reachable any more, and the
    sentinel and the tree itself have been freed as well. *)
Definition jsw_adelete (tree : jsw_atree) : jsw_atree :=
  let tree := adelete_loop (root tree) tree in
  mk_atree Nil (size tree) (released tree) (S (S (freed tree))).

(** ** Traversal *)

Record jsw_atrav : Type := mk_atrav {
  trav_it : jsw_anode;
  trav_path : path_t
}.

(** Build a path to work with *)
Fixpoint descend (it : jsw_anode) (dir : bool) (path : path_t) : jsw_atrav :=
  match it with
  | Nil => mk_atrav Nil path
  | Node _ _ l r =>
      let next := if dir then r else l in
      if is_nil next then mk_atrav it path
      else descend next dir ((it, dir) :: path)
  end.

Definition start (tree : jsw_atree) (dir : bool) : jsw_atrav * option E :=
  let trav := descend (root tree) dir [] in
  (trav, data (trav_it trav)).

(** Move to the next branch: [(p, d)] was left through [p->link[d]], so
    [last == p->link[dir]] reads [d = dir]. *)
Fixpoint unwind (path : path_t) (dir : bool) : jsw_atrav :=
  match path with
  | [] => mk_atrav Nil []
  | (p, d) :: up =>
      if Bool.eqb d dir then unwind up dir else mk_atrav p up
  end.

Definition move (trav : jsw_atrav) (dir : bool) : jsw_atrav * option E :=
  let it := trav_it trav in
  let trav :=
    if negb (is_nil (link it dir)) then
      (* Continue down this branch *)
      descend (link it dir) (negb dir) ((it, dir) :: trav_path trav)
    else unwind (trav_path trav) dir in
  (trav, data (trav_it trav)).

Definition jsw_atfirst (tree : jsw_atree) := start tree false.
Definition jsw_atlast (tree : jsw_atree) := start tree true.
Definition jsw_atnext (trav : jsw_atrav) := move trav true.
Definition jsw_atprev (trav : jsw_atrav) := move trav false.

(** ** What the properties are stated with *)

(** The stored items, in the order of the keys. *)
Fixpoint inorder (t : jsw_anode) : list E :=
  match t with
  | Nil => []
  | Node _ x l r => inorder l ++ x :: inorder r
  end.

Definition elements (tree : jsw_atree) : list E := inorder (root tree).

Fixpoint count_nodes (t : jsw_anode) : nat :=
  match t with
  | Nil => O
  | Node _ _ l r => S (count_nodes l + count_nodes r)
  end.

(** Every node that is not the sentinel, as the subtree it roots. *)
Fixpoint nodes (t : jsw_anode) : list jsw_anode :=
  match t with
  | Nil => []
  | Node _ _ l r => t :: nodes l ++ nodes r
  end.

Definition item (p : jsw_anode) : list E :=
  match data p with Some x => [x] | None => [] end.

(** The items to the left and to the right of the hole of a path. *)
Fixpoint path_before (path : path_t) : list E :=
  match path with
  | [] => []
  | (p, dir) :: up =>
      path_before up ++ (if dir then inorder (link p false) ++ item p else [])
  end.

Fixpoint path_after (path : path_t) : list E :=
  match path with
  | [] => []
  | (p, dir) :: up =>
      (if dir then [] else item p ++ inorder (link p true)) ++ path_after up
  end.

Definition path_ok (path : path_t) : Prop :=
  Forall (fun e => is_nil (fst e) = false) path.

(** Sequences of calls on one tree. *)
Definition apply_op (tree : jsw_atree) (o : op E) : jsw_atree * Z :=
  match o with
  | Insert malloc_ok x => jsw_ainsert malloc_ok tree x
  | Erase x => jsw_aerase tree x
  end.

Fixpoint run (tree : jsw_atree) (ops : list (op E)) : jsw_atree :=
  match ops with
  | [] => tree
  | o :: ops => run (fst (apply_op tree o)) ops
  end.

(** The number of calls among [ops] that satisfy [P] and returned success. *)
Fixpoint tally (P : op E -> bool) (tree : jsw_atree) (ops : list (op E))
  : nat :=
  match ops with
  | [] => O
  | o :: ops =>
      let r := apply_op tree o in
      Nat.add
        (if negb (snd r =? 0) && P o then 1%nat else 0%nat)
        (tally P (fst r) ops)
  end.

Definition is_insert (o : op E) : bool :=
  match o with Insert _ _ => true | Erase _ => false end.

Definition is_erase (o : op E) : bool :=
  match o with Insert _ _ => false | Erase _ => true end.

Definition inserts_of (e : E) (o : op E) : bool :=
  match o with Insert _ x => cmp x e =? 0 | Erase _ => false end.

Definition erases_of (e : E) (o : op E) : bool :=
  match o with Insert _ _ => false | Erase x => cmp x e =? 0 end.

(** The statements of [erase_fixup], one at a time. *)
Definition demote (up : jsw_anode) : jsw_anode :=
  let up := set_level up (level up - 1) in
  if level (link up true) >? level up
  then set_link up true (set_level (link up true) (level up))
  else up.

Definition skew_r (up : jsw_anode) : jsw_anode :=
  set_link up true (skew (link up true)).

Definition skew_rr (up : jsw_anode) : jsw_anode :=
  set_link up true
    (set_link (link up true) true (skew (link (link up true) true))).

Definition split_r (up : jsw_anode) : jsw_anode :=
  set_link up true (split (link up true)).

(** The direction recorded at a node of the descent of an insertion: low
    exactly when [cmp] of the node's item and the new one is not negative. *)
Definition routed (x : E) (e : jsw_anode * bool) : Prop :=
  exists y, data (fst e) = Some y /\ (snd e = false <-> 0 <= cmp y x).

(** ** The balance invariant *)

(** The levels of an Andersson tree: a real node is at level 1 or more, its
    low child one level below, its high child at its level or one below, and
    its high grandchild strictly below. *)
Fixpoint balanced (t : jsw_anode) : Prop :=
  match t with
  | Nil => True
  | Node lv _ l r =>
      1 <= lv /\ level l = lv - 1 /\
      (level r = lv \/ level r = lv - 1) /\
      level (link r true) < lv /\ balanced l /\ balanced r
  end.

(** The two conditions on a node [n] in the description of the tree. *)
Definition level_ok (n : jsw_anode) : Prop :=
  level (link n false) = level n - 1
  /\ level (link (link n true) true) <> level n.

(** A node without a high child is a leaf of level 1. *)
Definition leaf_if_no_high (n : jsw_anode) : Prop :=
  is_nil (link n true) = true -> level n = 1 /\ is_nil (link n false) = true.

(** No horizontal link leaves [t]. *)
Definition sngl (t : jsw_anode) : Prop := level (link t true) < level t.

(** What an insertion, and what an erasure, turns the subtree [t] into. *)
Definition post_ins (t t' : jsw_anode) : Prop :=
  balanced t'
  /\ (level t' = level t \/ (level t' = level t + 1 /\ sngl t' /\ ~ sngl t)).

Definition post_del (t t' : jsw_anode) : Prop :=
  balanced t'
  /\ (level t' = level t \/ level t' + 1 = level t)
  /\ (level t' = level t -> sngl t -> sngl t').

(** ** Full traversals *)

(** The items returned by [start] and then by [move] until it returns NULL,
    as the loop [for (p = first; p != NULL; p = next)] of a caller sees them.
    At most [fuel] calls of [move]; [None] if the end is not reached. *)
Fixpoint collect (dir : bool) (fuel : nat) (trav : jsw_atrav) (d : option E)
  : option (list E) :=
  match d with
  | None => Some []
  | Some x =>
      match fuel with
      | O => None
      | S fuel =>
          let (trav', d') := move trav dir in
          option_map (cons x) (collect dir fuel trav' d')
      end
  end.

Definition forward (tree : jsw_atree) (fuel : nat) : option (list E) :=
  let (trav, d) := jsw_atfirst tree in collect true fuel trav d.


(** The items of a subtree in the order of a traversal towards [dir]. *)
Fixpoint walk (dir : bool) (t : jsw_anode) : list E :=
  match t with
  | Nil => []
  | Node _ x l r =>
      walk dir (if dir then l else r) ++ x :: walk dir (if dir then r else l)
  end.

(** The items a traversal towards [dir] still owes for its path. *)
Fixpoint pending (dir : bool) (path : path_t) : list E :=
  match path with
  | [] => []
  | (p, d) :: up =>
      (if Bool.eqb d dir then [] else item p ++ walk dir (link p dir))
      ++ pending dir up
  end.

Definition remaining (dir : bool) (trav : jsw_atrav) : list E :=
  item (trav_it trav) ++ walk dir (link (trav_it trav) dir)
  ++ pending dir (trav_path trav).

Definition trav_ok (trav : jsw_atrav) : Prop :=
  is_nil (trav_it trav) = true -> trav_path trav = [].

Definition trav_inv (trav : jsw_atrav) : Prop :=
  trav_ok trav /\ path_ok (trav_path trav).

(** ** Order *)

Definition le (a b : E) : Prop := cmp a b <= 0.

(** Non-decreasing for [cmp]: no item is followed by a smaller one. *)
Definition sorted (l : list E) : Prop := StronglySorted le l.


(** The number of items of [l] that compare equal to [e]. *)
Definition count_eq (e : E) (l : list E) : nat :=
  length (filter (fun y => cmp y e =? 0) l).

(** ** The rebalancing of an erasure, in the words of its description *)

(** A child's level has fallen more than one below the level of [up]. *)
Definition fallen (up : jsw_anode) : bool :=
  (level (link up false) <? level up - 1)
  || (level (link up true) <? level up - 1).

(** Demote [up] to one more than the level [pick] takes from its two
    children, capping the level of the high child to match. *)
Definition demote_to (pick : Z -> Z -> Z) (up : jsw_anode) : jsw_anode :=
  let lv := 1 + pick (level (link up false)) (level (link up true)) in
  let up := set_level up lv in
  if level (link up true) >? lv
  then set_link up true (set_level (link up true) lv)
  else up.

(** Skew the ancestor, its high child and the high child of that one, then
    split the ancestor and its high child. *)
Definition fixup_by (pick : Z -> Z -> Z) (up : jsw_anode) : jsw_anode :=
  if fallen up
  then split_r (split (skew_rr (skew_r (skew (demote_to pick up)))))
  else up.

(** Walk back up the recorded path and relink each corrected ancestor into
    its parent; the last one is the root. *)
Fixpoint rebalance_by (pick : Z -> Z -> Z) (path : path_t) (child : jsw_anode)
  : jsw_anode :=
  match path with
  | [] => child
  | (p, dir) :: up =>
      rebalance_by pick up (fixup_by pick (set_link p dir child))
  end.

(** ** The height limit *)

(** [#define HEIGHT_LIMIT 64]: the slots of the [path] arrays. *)
Definition HEIGHT_LIMIT : nat := 64.

Fixpoint height (t : jsw_anode) : nat :=
  match t with
  | Nil => O
  | Node _ _ l r => S (Nat.max (height l) (height r))
  end.

(** Under each node of the path there is room for the part of the path
    above it: a path of a tree of height [h]. *)
Fixpoint path_room (h : nat) (path : path_t) : Prop :=
  match path with
  | [] => True
  | (p, _) :: up => (length up + height p <= h)%nat /\ path_room h up
  end.

Definition trav_room (h : nat) (trav : jsw_atrav) : Prop :=
  (length (trav_path trav) + height (trav_it trav) <= h)%nat
  /\ path_room h (trav_path trav).

(** A cursor after [start] and then [move] in the directions [dirs]. *)
Fixpoint moves (trav : jsw_atrav) (dirs : list bool) : jsw_atrav :=
  match dirs with
  | [] => trav
  | d :: dirs => moves (fst (move trav d)) dirs
  end.

(** ** The cost of a lookup, the links of a cursor *)

(** The calls of [cmp] that the loop of [jsw_afind] makes. *)
Fixpoint afind_cmps (it : jsw_anode) (x : E) : nat :=
  match it with
  | Nil => O
  | Node _ y l r =>
      let c := cmp y x in
      S (if c =? 0 then O else afind_cmps (if c <? 0 then r else l) x)
  end.

(** The path of a cursor leads to its node: each entry was left through the
    link that holds the entry (or the current node) above it. *)
Fixpoint linked (it : jsw_anode) (path : path_t) : Prop :=
  match path with
  | [] => True
  | (p, d) :: up => is_nil p = false /\ link p d = it /\ linked p up
  end.

Definition cursor_ok (trav : jsw_atrav) : Prop :=
  trav_ok trav /\ linked (trav_it trav) (trav_path trav).

(** The items on the side [dir] of the node of a cursor, nearest first:
    what a traversal towards [dir] returns after that node. *)
Definition ahead (dir : bool) (trav : jsw_atrav) : list E :=
  walk dir (link (trav_it trav) dir) ++ pending dir (trav_path trav).

(** A cursor on a node is at a place of the tree: the items before it, its
    own, and the items after it are the items of the tree. *)
Definition placed (tree : jsw_atree) (trav : jsw_atrav) : Prop :=
  is_nil (trav_it trav) = false ->
  elements tree
  = rev (ahead false trav) ++ item (trav_it trav) ++ ahead true trav.

(** ** The test of the containers, on the tree

    [src/test/test-atree.c] and [src/test/test-main.c].  The container is
    the tree made by [jsw_anew ( strcmp, strdup, free )]; here the functions
    take the [cmp] of the section and the text of an index as the function
    [item_of].

    The [dup] given to [jsw_anew] may return NULL, as [strdup] does when its
    allocation fails: it is the function [dup_f], which takes the outcome of
    its allocation, and the [dup] of the section is the clone it returns
    when it succeeds.  [new_node] calls it once [malloc] has given the node
    and stores what it returns without a test.  When that is NULL the node
    holds NULL as its item and [jsw_ainsert] returns 1 all the same; the
    next [cmp] on that node hands the null pointer to [strcmp], which is
    not defined on it.  The tree of this development holds items only: a
    NULL stored as an item is the outcome [None] of the functions below,
    and a run is not followed beyond it. *)

Definition N_MEMBERS : nat := 2048.

Definition insert_item (dup_f : bool -> E -> option E)
           (malloc_ok dup_ok : bool) (c : jsw_atree) (item : E)
  : option (jsw_atree * bool) :=
  if malloc_ok then
    match dup_f dup_ok item with
    | None => None
    | Some _ =>
        let r := jsw_ainsert true c item in
        Some (fst r, negb (snd r =? 0))
    end
  else
    let r := jsw_ainsert false c item in
    Some (fst r, negb (snd r =? 0)).

Definition remove_item (c : jsw_atree) (item : E) : jsw_atree * bool :=
  let r := jsw_aerase c item in
  (fst r, negb (snd r =? 0)).

Definition lookup_item (c : jsw_atree) (item : E) : bool :=
  match jsw_afind c item with
  | Some _ => true
  | None => false
  end.

Definition resize_container (c : jsw_atree) : bool := true.

Definition delete_container (c : jsw_atree) : jsw_atree := jsw_adelete c.

(** [members[j] = b] *)
Fixpoint store (j : nat) (b : bool) (a : list bool) : list bool :=
  match a, j with
  | [], _ => []
  | _ :: a, O => b :: a
  | x :: a, S j => x :: store j b a
  end.

Fixpoint count_true (a : list bool) : nat :=
  match a with
  | [] => O
  | b :: a => ((if b then 1 else 0) + count_true a)%nat
  end.

Record test_state : Type := mk_test {
  cont : jsw_atree;          (* the container [c] *)
  members : list bool        (* [static bool members[N_MEMBERS]] *)
}.

(** One call of [step]: [r] is what [rand ()] returns in it, [malloc_ok] and
    [dup_ok] the outcomes of the allocation of the node and of the one of
    [dup] if the step inserts.  [Some (inl code)] is [exit ( code )],
    [None] a NULL stored as an item.  The index is
    [((unsigned) r) % N_MEMBERS]: the conversion reduces [r] modulo a power
    of two that [N_MEMBERS] divides, so the index is [r mod N_MEMBERS]. *)
Definition step (dup_f : bool -> E -> option E) (item_of : nat -> E)
           (r : Z) (malloc_ok dup_ok : bool) (st : test_state)
  : option (Z + test_state) :=
  let j := Z.to_nat (r mod Z.of_nat N_MEMBERS) in
  let item := item_of j in
  let found := lookup_item (cont st) item in
  if negb (Bool.eqb found (nth j (members st) false)) then Some (inl 2)
  else
    match (if found then Some (remove_item (cont st) item)
           else insert_item dup_f malloc_ok dup_ok (cont st) item) with
    | None => None
    | Some (c, ok) =>
        if negb ok then Some (inl 3)
        else Some (inr (mk_test c (store j (negb (nth j (members st) false))
                                         (members st))))
    end.

(** The iterations [i], [i + 1], ..., [i + n - 1] of the loop of [main];
    [rand i], [malloc i] and [dup_ok i] belong to iteration [i]. *)
Fixpoint steps (dup_f : bool -> E -> option E) (item_of : nat -> E)
         (rand : nat -> Z) (malloc dup_ok : nat -> bool)
         (n i : nat) (st : test_state) : option (Z + test_state) :=
  match n with
  | O => Some (inr st)
  | S n =>
      match step dup_f item_of (rand i) (malloc i) (dup_ok i) st with
      | None => None
      | Some (inl code) => Some (inl code)
      | Some (inr st) =>
          if (i =? N_MEMBERS)%nat && negb (resize_container (cont st))
          then Some (inl 4)
          else steps dup_f item_of rand malloc dup_ok n (S i) st
      end
  end.

(** What holds of the container and of [members] between two steps:
    [members[j]] tells whether the text of [j] is stored, and stored once. *)
Definition test_inv (item_of : nat -> E) (st : test_state) : Prop :=
  balanced (root (cont st))
  /\ sorted (elements (cont st))
  /\ length (members st) = N_MEMBERS
  /\ length (elements (cont st)) = count_true (members st)
  /\ size (cont st) = Z.of_nat (count_true (members st))
  /\ forall j, (j < N_MEMBERS)%nat ->
       count_eq (item_of j) (elements (cont st))
       = if nth j (members st) false then 1%nat else 0%nat.

(** [main]: its exit code, and the tree record at the end when it passes;
    [None] when a NULL was stored as an item.  [new_ok = false]:
    [new_container] returned NULL. *)
Definition test_main (dup_f : bool -> E -> option E) (item_of : nat -> E)
           (new_ok : bool) (rand : nat -> Z) (malloc dup_ok : nat -> bool)
  : option (Z * option jsw_atree) :=
  if new_ok then
    match steps dup_f item_of rand malloc dup_ok (2 * N_MEMBERS) 0
                (mk_test jsw_anew (repeat false N_MEMBERS)) with
    | None => None
    | Some (inl code) => Some (code, None)
    | Some (inr st) => Some (0, Some (delete_container (cont st)))
    end
  else Some (1, None).
Unset Implicit Arguments.

(** ** Structure of paths *)

Lemma set_root_root (tree : jsw_atree) : set_root tree (root tree) = tree.
Proof. destruct tree; reflexivity. Qed.

Lemma set_link_link (p : jsw_anode) (dir : bool) : set_link p dir (link p dir) = p.
Proof. destruct p as [|lv x l r]; [reflexivity | destruct dir; reflexivity]. Qed.

Lemma relink_app (p1 p2 : path_t) (c : jsw_anode) :
  relink (p1 ++ p2) c = relink p2 (relink p1 c).
Proof.
  revert c; induction p1 as [|[p dir] p1 IH]; intros c; simpl; auto.
Qed.

Lemma relink_insert_path (it : jsw_anode) (x : E) (path : path_t) :
  is_nil it = false ->
  relink (insert_path it x path) Nil = relink path it.
Proof.
  revert path; induction it as [|lv y l IHl r IHr]; intros path Hit.
  - discriminate.
  - simpl. destruct (cmp y x <? 0).
    + destruct (is_nil r) eqn:Hr.
      * destruct r; [reflexivity | discriminate].
      * rewrite IHr by reflexivity. reflexivity.
    + destruct (is_nil l) eqn:Hl.
      * destruct l; [reflexivity | discriminate].
      * rewrite IHl by reflexivity. reflexivity.
Qed.

Lemma path_ok_insert_path (it : jsw_anode) (x : E) (path : path_t) :
  path_ok path -> path_ok (insert_path it x path).
Proof.
  revert path; induction it as [|lv y l IHl r IHr]; intros path Hp; simpl; auto.
  assert (Hc : path_ok ((Node lv y l r, cmp y x <? 0) :: path))
    by (constructor; auto).
  destruct (cmp y x <? 0).
  - destruct (is_nil r); auto.
  - destruct (is_nil l); auto.
Qed.

Lemma insert_path_routed (it : jsw_anode) (x : E) (path : path_t) :
  Forall (routed x) path -> Forall (routed x) (insert_path it x path).
Proof.
  revert path; induction it as [|lv y l IHl r IHr]; intros path Hp; simpl; auto.
  assert (Hc : Forall (routed x) ((Node lv y l r, cmp y x <? 0) :: path))
    by (constructor; [exists y; split; [reflexivity|]; cbn [snd];
         destruct (Z.ltb_spec (cmp y x) 0); split; (discriminate || lia || reflexivity)
        | assumption]).
  destruct (cmp y x <? 0).
  - destruct (is_nil r); auto.
  - destruct (is_nil l); auto.
Qed.

(** ** The macros move nodes, not items *)

Lemma erase_fixup_eq (up : jsw_anode) :
  erase_fixup up =
  if (level (link up false) <? level up - 1)
     || (level (link up true) <? level up - 1)
  then split_r (split (skew_rr (skew_r (skew (demote up)))))
  else up.
Proof. reflexivity. Qed.

Lemma skew_eq (lv : Z) (x : E) (l r : jsw_anode) :
  skew (Node lv x l r) =
  match l with
  | Node llv y a b =>
      if (llv =? lv) && negb (lv =? 0) then Node llv y a (Node lv x b r)
      else Node lv x l r
  | Nil => Node lv x l r
  end.
Proof.
  unfold skew; destruct l as [|llv y a b]; cbn [link level set_link].
  - destruct (Z.eqb_spec 0 lv); [subst; reflexivity | reflexivity].
  - reflexivity.
Qed.

Lemma split_eq (lv : Z) (x : E) (l r : jsw_anode) :
  split (Node lv x l r) =
  match r with
  | Node rlv y a (Node rrlv z c d) =>
      if (rrlv =? lv) && negb (lv =? 0)
      then Node (rlv + 1) y (Node lv x l a) (Node rrlv z c d)
      else Node lv x l r
  | _ => Node lv x l r
  end.
Proof.
  unfold split; destruct r as [|rlv y a [|rrlv z c d]];
    cbn [link level set_link set_level]; try reflexivity.
  all: destruct (Z.eqb_spec 0 lv); [subst; reflexivity | reflexivity].
Qed.

Lemma skew_nil : skew Nil = Nil.
Proof. reflexivity. Qed.

Lemma split_nil : split Nil = Nil.
Proof. reflexivity. Qed.

Lemma demote_eq (lv : Z) (x : E) (l r : jsw_anode) :
  demote (Node lv x l r) =
  if level r >? lv - 1 then Node (lv - 1) x l (set_level r (lv - 1))
  else Node (lv - 1) x l r.
Proof. reflexivity. Qed.

Lemma skew_r_eq (lv : Z) (x : E) (l r : jsw_anode) :
  skew_r (Node lv x l r) = Node lv x l (skew r).
Proof. reflexivity. Qed.

Lemma skew_rr_eq (lv : Z) (x : E) (l r : jsw_anode) :
  skew_rr (Node lv x l r) =
  Node lv x l (set_link r true (skew (link r true))).
Proof. reflexivity. Qed.

Lemma split_r_eq (lv : Z) (x : E) (l r : jsw_anode) :
  split_r (Node lv x l r) = Node lv x l (split r).
Proof. reflexivity. Qed.

Lemma inorder_skew (t : jsw_anode) : inorder (skew t) = inorder t.
Proof.
  destruct t as [|lv x l r]; [reflexivity|].
  rewrite skew_eq. destruct l as [|llv y a b]; [reflexivity|].
  destruct ((llv =? lv) && negb (lv =? 0)); [|reflexivity].
  simpl. rewrite <- app_assoc. reflexivity.
Qed.

Lemma inorder_split (t : jsw_anode) : inorder (split t) = inorder t.
Proof.
  destruct t as [|lv x l r]; [reflexivity|].
  rewrite split_eq. destruct r as [|rlv y a [|rrlv z c d]]; try reflexivity.
  destruct ((rrlv =? lv) && negb (lv =? 0)); [|reflexivity].
  simpl. rewrite <- app_assoc. reflexivity.
Qed.

Lemma inorder_set_level (t : jsw_anode) (lv : Z) :
  inorder (set_level t lv) = inorder t.
Proof. destruct t; reflexivity. Qed.

Lemma inorder_set_link_same (t c : jsw_anode) (dir : bool) :
  inorder c = inorder (link t dir) -> inorder (set_link t dir c) = inorder t.
Proof.
  destruct t as [|lv x l r]; [reflexivity|].
  destruct dir; simpl; intros ->; reflexivity.
Qed.

Lemma inorder_demote (t : jsw_anode) : inorder (demote t) = inorder t.
Proof.
  unfold demote. destruct (_ >? _).
  - rewrite inorder_set_link_same; [apply inorder_set_level|].
    apply inorder_set_level.
  - apply inorder_set_level.
Qed.

Lemma inorder_skew_r (t : jsw_anode) : inorder (skew_r t) = inorder t.
Proof. apply inorder_set_link_same, inorder_skew. Qed.

Lemma inorder_skew_rr (t : jsw_anode) : inorder (skew_rr t) = inorder t.
Proof.
  apply inorder_set_link_same, inorder_set_link_same, inorder_skew.
Qed.

Lemma inorder_split_r (t : jsw_anode) : inorder (split_r t) = inorder t.
Proof. apply inorder_set_link_same, inorder_split. Qed.

Lemma inorder_erase_fixup (t : jsw_anode) : inorder (erase_fixup t) = inorder t.
Proof.
  rewrite erase_fixup_eq. destruct (_ || _); [|reflexivity].
  rewrite inorder_split_r, inorder_split, inorder_skew_rr, inorder_skew_r,
    inorder_skew.
  apply inorder_demote.
Qed.

Lemma length_inorder (t : jsw_anode) : length (inorder t) = count_nodes t.
Proof.
  induction t as [|lv x l IHl r IHr]; [reflexivity|].
  simpl. rewrite length_app. simpl. lia.
Qed.

(** The items of a tree, seen from a hole in it. *)
Lemma inorder_set_link (p c : jsw_anode) (dir : bool) :
  is_nil p = false ->
  inorder (set_link p dir c) =
  (if dir then inorder (link p false) ++ item p else [])
  ++ inorder c
  ++ (if dir then [] else item p ++ inorder (link p true)).
Proof.
  destruct p as [|lv x l r]; [discriminate|]. intros _.
  destruct dir; simpl.
  - rewrite app_nil_r, <- app_assoc. reflexivity.
  - reflexivity.
Qed.

Lemma inorder_relink (path : path_t) (c : jsw_anode) :
  path_ok path ->
  inorder (relink path c) = path_before path ++ inorder c ++ path_after path.
Proof.
  revert c; induction path as [|[p dir] up IH]; intros c Hok; simpl.
  - rewrite app_nil_r. reflexivity.
  - inversion Hok as [|? ? Hp Hup]; subst. simpl in Hp.
    rewrite IH by assumption. rewrite inorder_set_link by assumption.
    rewrite <- !app_assoc. reflexivity.
Qed.

Lemma inorder_insert_rebalance (path : path_t) (c : jsw_anode) :
  path_ok path ->
  inorder (insert_rebalance path c)
  = path_before path ++ inorder c ++ path_after path.
Proof.
  revert c; induction path as [|[p dir] up IH]; intros c Hok; simpl.
  - rewrite app_nil_r. reflexivity.
  - inversion Hok as [|? ? Hp Hup]; subst. simpl in Hp.
    rewrite IH by assumption.
    rewrite inorder_split, inorder_skew, inorder_set_link by assumption.
    rewrite <- !app_assoc. reflexivity.
Qed.

Lemma inorder_erase_rebalance (path : path_t) (c : jsw_anode) :
  path_ok path ->
  inorder (erase_rebalance path c)
  = path_before path ++ inorder c ++ path_after path.
Proof.
  revert c; induction path as [|[p dir] up IH]; intros c Hok; simpl.
  - rewrite app_nil_r. reflexivity.
  - inversion Hok as [|? ? Hp Hup]; subst. simpl in Hp.
    rewrite IH by assumption.
    rewrite inorder_erase_fixup, inorder_set_link by assumption.
    rewrite <- !app_assoc. reflexivity.
Qed.

Lemma path_before_app (p1 p2 : path_t) :
  path_before (p1 ++ p2) = path_before p2 ++ path_before p1.
Proof.
  induction p1 as [|[p dir] p1 IH]; simpl.
  - rewrite app_nil_r. reflexivity.
  - rewrite IH, app_assoc. reflexivity.
Qed.

Lemma path_after_app (p1 p2 : path_t) :
  path_after (p1 ++ p2) = path_after p1 ++ path_after p2.
Proof.
  induction p1 as [|[p dir] p1 IH]; simpl; [reflexivity|].
  rewrite IH, app_assoc. reflexivity.
Qed.

(** ** The descent of an erasure *)

Lemma erase_path_some (it : jsw_anode) (x : E) (path : path_t)
      (found : jsw_anode) (path' : path_t) :
  erase_path it x path = Some (found, path') ->
  relink path' found = relink path it
  /\ (path_ok path -> path_ok path')
  /\ exists lv y l r, found = Node lv y l r /\ cmp y x = 0.
Proof.
  revert path; induction it as [|lv y l IHl r IHr]; intros path; simpl.
  - discriminate.
  - destruct (Z.eqb_spec (cmp y x) 0) as [H0|H0].
    + intros [= <- <-]. repeat split; auto. exists lv, y, l, r; auto.
    + intros H.
      assert (Hc : path_ok path ->
                   path_ok ((Node lv y l r, cmp y x <? 0) :: path))
        by (intros; constructor; auto).
      destruct (cmp y x <? 0).
      * apply IHr in H as (H1 & H2 & H3). simpl in H1.
        repeat split; auto.
      * apply IHl in H as (H1 & H2 & H3). simpl in H1.
        repeat split; auto.
Qed.

Lemma erase_path_find (it : jsw_anode) (x : E) (path : path_t) :
  match erase_path it x path with
  | Some (found, _) => afind_loop it x = found
  | None => afind_loop it x = Nil
  end.
Proof.
  revert path; induction it as [|lv y l IHl r IHr]; intros path; simpl.
  - reflexivity.
  - destruct (cmp y x =? 0); [reflexivity|].
    destruct (cmp y x <? 0); [apply IHr | apply IHl].
Qed.

Lemma afind_loop_none (it : jsw_anode) (x : E) :
  (forall y, In y (inorder it) -> cmp y x <> 0) -> afind_loop it x = Nil.
Proof.
  induction it as [|lv y l IHl r IHr]; intros H; simpl; [reflexivity|].
  destruct (Z.eqb_spec (cmp y x) 0) as [H0|H0].
  - exfalso. apply (H y); [|assumption]. simpl. apply in_elt.
  - destruct (cmp y x <? 0).
    + apply IHr. intros z Hz. apply H. simpl.
      apply in_or_app. right. right. assumption.
    + apply IHl. intros z Hz. apply H. simpl.
      apply in_or_app. left. assumption.
Qed.

Lemma afind_loop_some (it : jsw_anode) (x : E) :
  afind_loop it x = Nil
  \/ exists lv y l r,
       afind_loop it x = Node lv y l r /\ cmp y x = 0 /\ In y (inorder it).
Proof.
  induction it as [|lv y l IHl r IHr]; simpl; [left; reflexivity|].
  destruct (Z.eqb_spec (cmp y x) 0) as [H0|H0].
  - right. exists lv, y, l, r. repeat split; auto. apply in_elt.
  - destruct (cmp y x <? 0).
    + destruct IHr as [H|(lv' & y' & l' & r' & H & Hc & Hin)]; [left; auto|].
      right. exists lv', y', l', r'. repeat split; auto.
      apply in_or_app. right. right. assumption.
    + destruct IHl as [H|(lv' & y' & l' & r' & H & Hc & Hin)]; [left; auto|].
      right. exists lv', y', l', r'. repeat split; auto.
      apply in_or_app. left. assumption.
Qed.

Lemma heir_path_spec (t : jsw_anode) (path : path_t) :
  is_nil t = false ->
  exists heir hpath,
    heir_path t path = (heir, hpath ++ path)
    /\ heir_path t [] = (heir, hpath)
    /\ relink hpath heir = t
    /\ path_ok hpath
    /\ path_before hpath = []
    /\ is_nil heir = false /\ link heir false = Nil.
Proof.
  revert path; induction t as [|lv y l IHl r IHr]; intros path Ht.
  - discriminate.
  - simpl. destruct (is_nil l) eqn:Hl.
    + exists (Node lv y l r), []. destruct l; [|discriminate].
      repeat split; auto. constructor.
    + destruct (IHl ((Node lv y l r, false) :: path) eq_refl)
        as (heir & hpath & H1 & H2 & H3 & H4 & H5 & H6 & H7).
      destruct (IHl [(Node lv y l r, false)] eq_refl)
        as (heir' & hpath' & H1' & H2' & _).
      rewrite H2 in H2'. injection H2' as <- <-.
      exists heir, (hpath ++ [(Node lv y l r, false)]).
      rewrite <- app_assoc. simpl. repeat split; auto.
      * rewrite relink_app, H3. reflexivity.
      * apply Forall_app. split; [assumption|]. constructor; auto.
      * rewrite path_before_app. simpl. assumption.
Qed.

(** ** Insertion and erasure keep the levels balanced *)

Lemma balanced_facts (t : jsw_anode) :
  balanced t ->
  0 <= level t /\ level (link t true) <= level t
  /\ level (link t false) <= level t.
Proof.
  destruct t as [|lv x l r]; cbn; [lia|].
  intros (? & ? & ? & ? & Hl & Hr). destruct l, r; cbn in *; lia.
Qed.

Ltac levels_cbn :=
  cbn [balanced level link set_link set_level is_nil negb andb orb] in *.

Ltac drop_absurd := try (exfalso; lia).

(** One step of evaluation of the macros on a node, by cases on the levels
    met; the cases the hypotheses exclude are dropped at once. *)
Ltac eval_macro :=
  match goal with
  | |- context [skew Nil] => rewrite skew_nil
  | |- context [split Nil] => rewrite split_nil
  | |- context [skew (Node _ _ _ _)] => rewrite skew_eq
  | |- context [split (Node _ _ _ _)] => rewrite split_eq
  | |- context [demote (Node _ _ _ _)] => rewrite demote_eq
  | |- context [skew_r (Node _ _ _ _)] => rewrite skew_r_eq
  | |- context [skew_rr (Node _ _ _ _)] => rewrite skew_rr_eq
  | |- context [split_r (Node _ _ _ _)] => rewrite split_r_eq
  | |- context [Z.eqb ?a ?b] => destruct (Z.eqb_spec a b); drop_absurd
  | |- context [Z.ltb ?a ?b] => destruct (Z.ltb_spec a b); drop_absurd
  | |- context [Z.gtb ?a ?b] => rewrite (Z.gtb_ltb a b)
  | |- context [match ?t with Nil => _ | Node _ _ _ _ => _ end] =>
      is_var t; destruct t; levels_cbn; drop_absurd
  | |- context [skew ?t] => is_var t; destruct t; levels_cbn; drop_absurd
  | |- context [split ?t] => is_var t; destruct t; levels_cbn; drop_absurd
  | |- context [set_level ?t _] => is_var t; destruct t; levels_cbn; drop_absurd
  | |- context [set_link ?t _ _] => is_var t; destruct t; levels_cbn; drop_absurd
  | |- context [skew (link ?t _)] => is_var t; destruct t; levels_cbn; drop_absurd
  end; levels_cbn.

Ltac level_facts :=
  repeat match goal with H : _ /\ _ |- _ => destruct H end;
  repeat match goal with
         | H : balanced ?t |- _ => pose proof (balanced_facts t H); revert H
         end;
  intros.

(** The alternatives left in the hypotheses, one by one. *)
Ltac case_levels :=
  repeat match goal with
         | H : _ /\ _ |- _ => destruct H
         | H : ?a = _ |- _ => is_var a; subst a
         | H : _ = ?b |- _ => is_var b; subst b
         | H : _ \/ _ |- _ => destruct H; drop_absurd
         end.

Ltac close_levels :=
  unfold sngl in *; levels_cbn; level_facts; case_levels;
  repeat match goal with |- _ /\ _ => split | |- _ -> _ => intro end;
  try assumption; try lia.

Lemma post_ins_step (p c' : jsw_anode) (dir : bool) :
  is_nil p = false -> balanced p -> post_ins (link p dir) c' ->
  post_ins p (split (skew (set_link p dir c'))).
Proof.
  intros Hp Ha [Hc Hl]. unfold post_ins, sngl in *.
  destruct p as [|lv x l r]; [discriminate|]. destruct dir; levels_cbn.
  - repeat eval_macro. all: close_levels.
  - repeat eval_macro. all: close_levels.
Qed.

Lemma post_del_step (p c' : jsw_anode) (dir : bool) :
  is_nil p = false -> balanced p -> post_del (link p dir) c' ->
  post_del p (erase_fixup (set_link p dir c')).
Proof.
  intros Hp Ha [Hc [Hl Hs]]. unfold post_del, sngl in *.
  destruct p as [|lv x l r]; [discriminate|].
  rewrite erase_fixup_eq. destruct dir; levels_cbn.
  - repeat eval_macro. all: close_levels.
  - repeat eval_macro. all: close_levels.
Qed.

Lemma balanced_set_link_inv (p c : jsw_anode) (dir : bool) :
  is_nil p = false -> balanced (set_link p dir c) -> balanced c.
Proof.
  destruct p as [|lv x l r]; [discriminate|]. intros _.
  destruct dir; cbn; tauto.
Qed.

Lemma balanced_relink_inv (path : path_t) (c : jsw_anode) :
  path_ok path -> balanced (relink path c) -> balanced c.
Proof.
  revert c; induction path as [|[p dir] up IH]; intros c Hok H; simpl in *.
  - assumption.
  - inversion Hok as [|? ? Hp Hup]; subst. simpl in Hp.
    apply IH in H; [|assumption].
    apply (balanced_set_link_inv p c dir Hp H).
Qed.

Lemma link_set_link (p c : jsw_anode) (dir : bool) :
  is_nil p = false -> link (set_link p dir c) dir = c.
Proof.
  destruct p; [discriminate|]. destruct dir; reflexivity.
Qed.

Lemma set_link_set_link (p c c' : jsw_anode) (dir : bool) :
  set_link (set_link p dir c) dir c' = set_link p dir c'.
Proof. destruct p; [reflexivity|]. destruct dir; reflexivity. Qed.

Lemma is_nil_set_link (p c : jsw_anode) (dir : bool) :
  is_nil (set_link p dir c) = is_nil p.
Proof. destruct p; [reflexivity|]. destruct dir; reflexivity. Qed.

Lemma post_ins_rebalance (path : path_t) (c c' : jsw_anode) :
  path_ok path -> balanced (relink path c) -> post_ins c c' ->
  post_ins (relink path c) (insert_rebalance path c').
Proof.
  revert c c'; induction path as [|[p dir] up IH]; intros c c' Hok Hb Hc.
  - assumption.
  - simpl in *. inversion Hok as [|? ? Hp Hup]; subst. simpl in Hp.
    apply IH; [assumption | assumption |].
    rewrite <- (set_link_set_link p c c' dir).
    apply post_ins_step.
    + rewrite is_nil_set_link. assumption.
    + apply (balanced_relink_inv up _ Hup Hb).
    + rewrite link_set_link by assumption. assumption.
Qed.

Lemma post_del_rebalance (path : path_t) (c c' : jsw_anode) :
  path_ok path -> balanced (relink path c) -> post_del c c' ->
  post_del (relink path c) (erase_rebalance path c').
Proof.
  revert c c'; induction path as [|[p dir] up IH]; intros c c' Hok Hb Hc.
  - assumption.
  - simpl in *. inversion Hok as [|? ? Hp Hup]; subst. simpl in Hp.
    apply IH; [assumption | assumption |].
    rewrite <- (set_link_set_link p c c' dir).
    apply post_del_step.
    + rewrite is_nil_set_link. assumption.
    + apply (balanced_relink_inv up _ Hup Hb).
    + rewrite link_set_link by assumption. assumption.
Qed.

(** A node with a missing child is at level 1 and has no low child. *)
Lemma balanced_single_child (it : jsw_anode) :
  balanced it ->
  is_nil (link it false) || is_nil (link it true) = true ->
  link it false = Nil /\ (is_nil it = false -> level it = 1).
Proof.
  destruct it as [|lv x l r]; [intros; split; [reflexivity | discriminate]|].
  cbn [balanced link]. intros (H1 & H2 & H3 & H4 & Hl & Hr) H.
  destruct l as [|llv ly ll lr]; cbn in *.
  - split; [reflexivity | intros; lia].
  - destruct r as [|rlv ry rl rr]; [|discriminate]. cbn in *. lia.
Qed.

Lemma post_del_splice (it : jsw_anode) :
  balanced it -> is_nil it = false -> link it false = Nil ->
  post_del it (link it true).
Proof.
  destruct it as [|lv x l r]; [discriminate|].
  cbn [balanced link]. intros (H1 & H2 & H3 & H4 & Hl & Hr) _ ->.
  unfold post_del, sngl. cbn [level] in *.
  pose proof (balanced_facts r Hr).
  repeat split; try assumption; try lia.
Qed.

(** The levels do not look at the items. *)
Lemma balanced_relink_congr (path : path_t) (c c2 : jsw_anode) :
  path_ok path -> balanced (relink path c) -> balanced c2 ->
  level c2 = level c -> level (link c2 true) = level (link c true) ->
  balanced (relink path c2).
Proof.
  revert c c2; induction path as [|[p dir] up IH];
    intros c c2 Hok Hb Hc2 Hl Hr.
  - assumption.
  - simpl in *. inversion Hok as [|? ? Hp Hup]; subst. simpl in Hp.
    pose proof (balanced_relink_inv up _ Hup Hb) as Hpc.
    destruct p as [|lv x l r]; [discriminate|].
    apply (IH (set_link (Node lv x l r) dir c)); try assumption.
    + destruct dir; cbn [set_link balanced] in *.
      * rewrite Hl, Hr. tauto.
      * rewrite Hl. tauto.
    + destruct dir; reflexivity.
    + destruct dir; cbn [set_link link]; [assumption | reflexivity].
Qed.

Lemma balanced_set_data (it : jsw_anode) (d : option E) :
  balanced it -> balanced (set_data it d).
Proof. destruct it, d; cbn; auto. Qed.

Lemma balanced_insert (malloc_ok : bool) (tree : jsw_atree) (x : E) :
  balanced (root tree) ->
  balanced (root (fst (jsw_ainsert malloc_ok tree x))).
Proof.
  intros Hb. unfold jsw_ainsert.
  destruct (is_nil (root tree)) eqn:Hr.
  - destruct malloc_ok; cbn; [lia | trivial].
  - pose proof (relink_insert_path (root tree) x [] Hr) as Hrel.
    simpl in Hrel.
    assert (Hok : path_ok (insert_path (root tree) x []))
      by (apply path_ok_insert_path; constructor).
    destruct malloc_ok; cbn [new_node is_nil fst root incr_size set_root].
    + apply (post_ins_rebalance (insert_path (root tree) x []) Nil); auto.
      * rewrite Hrel. assumption.
      * unfold post_ins, sngl. cbn. lia.
    + rewrite Hrel. assumption.
Qed.

(** The walk of an erasure starts from a hole of a balanced tree, filled
    with a subtree that satisfies [post_del]. *)
Lemma erase_unlink_spec (it : jsw_anode) (path : path_t) :
  is_nil it = false -> path_ok path -> balanced (relink path it) ->
  exists c,
    path_ok (fst (erase_unlink it path))
    /\ balanced (relink (fst (erase_unlink it path)) c)
    /\ post_del c (snd (erase_unlink it path)).
Proof.
  intros Hnil Hok Hb.
  pose proof (balanced_relink_inv path _ Hok Hb) as Hit.
  unfold erase_unlink.
  destruct (is_nil (link it false) || is_nil (link it true)) eqn:Hc.
  - destruct (balanced_single_child _ Hit Hc) as [Hl _].
    rewrite Hl. cbn [is_nil fst snd].
    replace (match path with [] => link it true | _ :: _ => link it true end)
      with (link it true) by (destruct path; reflexivity).
    exists it. split; [|split]; auto. apply post_del_splice; auto.
  - apply orb_false_elim in Hc as [_ Hr].
    destruct (heir_path_spec (link it true) [] Hr)
      as (heir & hpath & _ & Hh & Hrelh & Hokh & _ & Hhn & Hlow).
    rewrite Hh. cbn [fst snd].
    set (it' := set_data it (data heir)).
    assert (Hnil' : is_nil it' = false)
      by (unfold it'; destruct it, (data heir); auto).
    assert (Hb' : balanced (relink path it')).
    { apply (balanced_relink_congr path it); auto.
      - apply balanced_set_data. assumption.
      - unfold it'. destruct it, (data heir); reflexivity.
      - unfold it'. destruct it, (data heir); reflexivity. }
    assert (Hrel' : relink (hpath ++ (it', true) :: path) heir
                    = relink path it').
    { rewrite relink_app. simpl. rewrite Hrelh.
      unfold it'. destruct it, (data heir); reflexivity. }
    assert (Hok' : path_ok (hpath ++ (it', true) :: path)).
    { apply Forall_app. split; [assumption|]. constructor; assumption. }
    exists heir. rewrite Hrel'. split; [|split]; auto.
    apply post_del_splice; auto.
    rewrite <- Hrel' in Hb'. apply (balanced_relink_inv _ _ Hok' Hb').
Qed.

Lemma balanced_erase (tree : jsw_atree) (x : E) :
  balanced (root tree) -> balanced (root (fst (jsw_aerase tree x))).
Proof.
  intros Hb. unfold jsw_aerase.
  destruct (is_nil (root tree)); [assumption|].
  destruct (erase_path (root tree) x []) as [[it path]|] eqn:Hp;
    [|assumption].
  apply erase_path_some in Hp as (Hrel & Hok & lv & y & l & r & -> & Hy).
  simpl in Hrel. specialize (Hok (Forall_nil _)).
  rewrite <- Hrel in Hb.
  destruct (erase_unlink_spec (Node lv y l r) path eq_refl Hok Hb)
    as (c & H1 & H2 & H3).
  destruct (erase_unlink (Node lv y l r) path) as [wpath child].
  cbn [fst snd root decr_size set_root] in *.
  apply (post_del_rebalance wpath c child H1 H2 H3).
Qed.

Lemma balanced_run (ops : list (op E)) (tree : jsw_atree) :
  balanced (root tree) -> balanced (root (run tree ops)).
Proof.
  revert tree; induction ops as [|o ops IH]; intros tree Hb; simpl.
  - assumption.
  - apply IH. destruct o; [apply balanced_insert | apply balanced_erase];
      assumption.
Qed.

Lemma Forall_nodes (P : jsw_anode -> Prop) (t : jsw_anode) :
  (forall lv x l r, balanced (Node lv x l r) -> P (Node lv x l r)) ->
  balanced t -> Forall P (nodes t).
Proof.
  intros HP. induction t as [|lv x l IHl r IHr]; intros Hb; simpl.
  - constructor.
  - constructor; [apply HP; assumption|].
    cbn in Hb. apply Forall_app. split; [apply IHl | apply IHr]; tauto.
Qed.

(** ** What one call does to the tree record *)

Ltac list_norm :=
  repeat first [rewrite <- app_assoc | rewrite app_nil_r | progress cbn [app]].

Lemma ainsert_fail (tree : jsw_atree) (x : E) :
  jsw_ainsert false tree x = (tree, 0).
Proof.
  unfold jsw_ainsert. cbn [new_node is_nil].
  destruct (is_nil (root tree)) eqn:Hr.
  - destruct tree as [[|] ? ? ?]; [reflexivity | discriminate].
  - rewrite relink_insert_path by assumption. simpl.
    rewrite set_root_root. reflexivity.
Qed.

Lemma ainsert_ok (tree : jsw_atree) (x : E) :
  exists newroot,
    jsw_ainsert true tree x
    = (mk_atree newroot ((size tree + 1) mod size_modulus)
                (released tree) (freed tree), 1)
    /\ elements tree
       = path_before (insert_path (root tree) x [])
         ++ path_after (insert_path (root tree) x [])
    /\ inorder newroot
       = path_before (insert_path (root tree) x [])
         ++ dup x :: path_after (insert_path (root tree) x []).
Proof.
  unfold jsw_ainsert, elements. cbn [new_node is_nil].
  destruct (is_nil (root tree)) eqn:Hr.
  - exists (Node 1 (dup x) Nil Nil). destruct (root tree); [|discriminate].
    repeat split.
  - exists (insert_rebalance (insert_path (root tree) x []) (Node 1 (dup x) Nil Nil)).
    assert (Hok : path_ok (insert_path (root tree) x []))
      by (apply path_ok_insert_path; constructor).
    repeat split.
    + pose proof (relink_insert_path (root tree) x [] Hr) as Hrel.
      simpl in Hrel. rewrite <- Hrel at 1.
      rewrite inorder_relink by assumption. reflexivity.
    + rewrite inorder_insert_rebalance by assumption. reflexivity.
Qed.

Lemma aerase_cases (tree : jsw_atree) (x : E) :
  balanced (root tree) ->
  (afind_loop (root tree) x = Nil /\ jsw_aerase tree x = (tree, 0))
  \/ (exists y A B newroot,
        cmp y x = 0
        /\ elements tree = A ++ y :: B
        /\ inorder newroot = A ++ B
        /\ jsw_aerase tree x
           = (mk_atree newroot ((size tree - 1) mod size_modulus)
                       (released tree ++ [y]) (S (freed tree)), 1)).
Proof.
  intros Hb. unfold jsw_aerase, elements.
  destruct (is_nil (root tree)) eqn:Hr.
  { left. destruct (root tree); [auto | discriminate]. }
  pose proof (erase_path_find (root tree) x []) as Hfind.
  destruct (erase_path (root tree) x []) as [[it path]|] eqn:Hp;
    [|left; auto].
  right.
  apply erase_path_some in Hp as (Hrel & Hok & lv & y & l & r & -> & Hy).
  simpl in Hrel. specialize (Hok (Forall_nil _)).
  rewrite <- Hrel in Hb |- *.
  pose proof (balanced_relink_inv path _ Hok Hb) as Hit.
  rewrite inorder_relink by assumption.
  exists y, (path_before path ++ inorder l), (inorder r ++ path_after path).
  unfold erase_unlink.
  destruct (is_nil (link (Node lv y l r) false)
            || is_nil (link (Node lv y l r) true)) eqn:Hc.
  - destruct (balanced_single_child _ Hit Hc) as [Hl _].
    cbn [link] in Hl. subst l. cbn [link is_nil].
    exists (erase_rebalance path r).
    replace (match path with [] => r | _ :: _ => r end) with r
      by (destruct path; reflexivity).
    repeat split; auto.
    + cbn [inorder]. list_norm. reflexivity.
    + rewrite inorder_erase_rebalance by assumption.
      cbn [inorder]. list_norm. reflexivity.
  - cbn [link] in *. apply orb_false_elim in Hc as [_ Hr'].
    destruct (heir_path_spec r [] Hr')
      as (heir & hpath & _ & Hh & Hrelh & Hokh & Hbef & Hnil & Hlow).
    rewrite Hh.
    destruct heir as [|hlv hx hl hr]; [discriminate|].
    cbn [link] in Hlow. subst hl. cbn [data set_data link].
    exists (erase_rebalance (hpath ++ (Node lv hx l r, true) :: path) hr).
    repeat split; auto.
    + cbn [inorder]. list_norm. reflexivity.
    + rewrite inorder_erase_rebalance
        by (apply Forall_app; split; [assumption|]; constructor; auto).
      rewrite path_before_app, path_after_app, Hbef.
      cbn [path_before path_after link item data].
      rewrite <- Hrelh, inorder_relink, Hbef by assumption.
      cbn [inorder]. list_norm. reflexivity.
Qed.

(** ** Counting along a sequence of calls *)

Lemma apply_op_cases (tree : jsw_atree) (o : op E) :
  balanced (root tree) ->
  (apply_op tree o = (tree, 0))
  \/ (exists x newroot A B,
        o = Insert true x
        /\ elements tree = A ++ B /\ inorder newroot = A ++ dup x :: B
        /\ apply_op tree o
           = (mk_atree newroot ((size tree + 1) mod size_modulus)
                       (released tree) (freed tree), 1))
  \/ (exists x y newroot A B,
        o = Erase x /\ cmp y x = 0
        /\ elements tree = A ++ y :: B /\ inorder newroot = A ++ B
        /\ apply_op tree o
           = (mk_atree newroot ((size tree - 1) mod size_modulus)
                       (released tree ++ [y]) (S (freed tree)), 1)).
Proof.
  intros Hb. destruct o as [[|] x|x]; simpl.
  - right. left. destruct (ainsert_ok tree x) as (nr & H1 & H2 & H3).
    exists x, nr, (path_before (insert_path (root tree) x [])),
      (path_after (insert_path (root tree) x [])). auto.
  - left. apply ainsert_fail.
  - destruct (aerase_cases tree x Hb)
      as [[_ H]|(y & A & B & nr & H1 & H2 & H3 & H4)].
    + left. assumption.
    + right. right. exists x, y, nr, A, B. auto.
Qed.


Ltac size_mod :=
  match goal with
  | |- (?a mod ?m + ?i - ?d) mod ?m = _ =>
      replace (a mod m + i - d) with (a mod m + (i - d)) by lia;
      rewrite Zplus_mod_idemp_l; f_equal; lia
  end.

(** The totals of a run: nodes, [size], calls of [free]. *)
Lemma run_totals (ops : list (op E)) (tree : jsw_atree) :
  balanced (root tree) ->
  Z.of_nat (length (elements (run tree ops)))
  = Z.of_nat (length (elements tree))
    + Z.of_nat (tally is_insert tree ops) - Z.of_nat (tally is_erase tree ops)
  /\ size (run tree ops) mod size_modulus
     = (size tree + Z.of_nat (tally is_insert tree ops)
        - Z.of_nat (tally is_erase tree ops)) mod size_modulus
  /\ freed (run tree ops) = (freed tree + tally is_erase tree ops)%nat
  /\ length (released (run tree ops))
     = (length (released tree) + tally is_erase tree ops)%nat.
Proof.
  revert tree; induction ops as [|o ops IH]; intros tree Hb.
  - simpl. repeat split; try lia. f_equal. lia.
  - cbn [run tally].
    assert (Hb' : balanced (root (fst (apply_op tree o))))
      by (destruct o; [apply balanced_insert | apply balanced_erase]; auto).
    destruct (IH _ Hb') as (IH1 & IH2 & IH3 & IH4).
    rewrite IH1, IH2, IH3, IH4. clear IH IH1 IH2 IH3 IH4.
    destruct (apply_op_cases tree o Hb)
      as [H|[(x & nr & A & B & -> & H1 & H2 & H)
            |(x & y & nr & A & B & -> & Hy & H1 & H2 & H)]];
      rewrite H; unfold elements in *;
      cbn [fst snd root size freed released is_insert is_erase andb negb
           Z.eqb].
    + repeat split; try lia; f_equal; lia.
    + rewrite H1, H2, !length_app. cbn [length].
      repeat split; try lia. size_mod.
    + rewrite H1, H2, !length_app. cbn [length].
      repeat split; try lia. size_mod.
Qed.

(** ** Destruction *)

Lemma adelete_loop_spec (it : jsw_anode) (tree : jsw_atree) :
  adelete_loop it tree
  = mk_atree (root tree) (size tree) (released tree ++ inorder it)
             (freed tree + count_nodes it).
Proof.
  funelim (adelete_loop it tree); simp adelete_loop.
  - rewrite app_nil_r, Nat.add_0_r. destruct tree; reflexivity.
  - rewrite H. cbn [rel_data free_node root size released freed data
                    inorder count_nodes app].
    f_equal; [list_norm; reflexivity | lia].
  - rewrite H. cbn [inorder count_nodes].
    f_equal; [list_norm; reflexivity | lia].
Qed.

(** ** Traversal *)

Lemma walk_true (t : jsw_anode) : walk true t = inorder t.
Proof.
  induction t as [|lv x l IHl r IHr]; [reflexivity|].
  simpl. rewrite IHl, IHr. reflexivity.
Qed.

Lemma walk_false (t : jsw_anode) : walk false t = rev (inorder t).
Proof.
  induction t as [|lv x l IHl r IHr]; [reflexivity|].
  simpl. rewrite IHl, IHr, rev_app_distr. simpl.
  rewrite <- app_assoc. reflexivity.
Qed.

Lemma walk_node (dir : bool) (t : jsw_anode) :
  walk dir t
  = walk dir (link t (negb dir)) ++ item t ++ walk dir (link t dir).
Proof. destruct t as [|lv x l r]; [reflexivity|]. destruct dir; reflexivity. Qed.

Lemma descend_spec (dir : bool) (t : jsw_anode) (path : path_t) :
  is_nil t = false ->
  is_nil (trav_it (descend t (negb dir) path)) = false
  /\ remaining dir (descend t (negb dir) path)
     = walk dir t ++ pending dir path.
Proof.
  revert path; induction t as [|lv x l IHl r IHr]; intros path Ht.
  - discriminate.
  - cbn [descend].
    set (next := if negb dir then r else l).
    assert (Hnext : next = link (Node lv x l r) (negb dir)) by reflexivity.
    destruct (is_nil next) eqn:Hn.
    + split; [reflexivity|]. unfold remaining. cbn [trav_it trav_path].
      rewrite (walk_node dir (Node lv x l r)), <- Hnext.
      destruct next; [|discriminate]. cbn [walk app].
      rewrite <- app_assoc. reflexivity.
    + assert (IH : is_nil (trav_it (descend next (negb dir)
                       ((Node lv x l r, negb dir) :: path))) = false
                   /\ remaining dir (descend next (negb dir)
                        ((Node lv x l r, negb dir) :: path))
                      = walk dir next
                        ++ pending dir ((Node lv x l r, negb dir) :: path)).
      { unfold next in *. destruct (negb dir); [apply IHr | apply IHl];
          assumption. }
      destruct IH as [IH1 IH2]. split; [assumption|].
      rewrite IH2. cbn [pending].
      replace (Bool.eqb (negb dir) dir) with false by (destruct dir; reflexivity).
      rewrite (walk_node dir (Node lv x l r)), <- Hnext.
      rewrite <- !app_assoc. reflexivity.
Qed.

Lemma unwind_spec (dir : bool) (path : path_t) :
  path_ok path ->
  trav_ok (unwind path dir)
  /\ remaining dir (unwind path dir) = pending dir path.
Proof.
  induction path as [|[p d] up IH]; intros Hok.
  - split; [intros _; reflexivity | reflexivity].
  - inversion Hok as [|? ? Hp Hup]; subst. simpl in Hp.
    cbn [unwind pending]. destruct (Bool.eqb d dir).
    + apply IH. assumption.
    + split.
      * unfold trav_ok. cbn [trav_it]. congruence.
      * unfold remaining. cbn [trav_it trav_path].
        rewrite <- app_assoc. reflexivity.
Qed.

Lemma path_ok_descend (t : jsw_anode) (dd : bool) (path : path_t) :
  path_ok path -> path_ok (trav_path (descend t dd path)).
Proof.
  revert path; induction t as [|lv x l IHl r IHr]; intros path Hok.
  - assumption.
  - cbn [descend].
    assert (Hc : path_ok ((Node lv x l r, dd) :: path))
      by (constructor; auto).
    destruct dd.
    + destruct (is_nil r); [assumption | apply IHr; assumption].
    + destruct (is_nil l); [assumption | apply IHl; assumption].
Qed.

Lemma path_ok_unwind (dir : bool) (path : path_t) :
  path_ok path -> path_ok (trav_path (unwind path dir)).
Proof.
  induction path as [|[p d] up IH]; intros Hok; [constructor|].
  inversion Hok; subst. cbn [unwind].
  destruct (Bool.eqb d dir); [apply IH; assumption | assumption].
Qed.

Lemma start_spec (tree : jsw_atree) (dir : bool) :
  trav_inv (fst (start tree (negb dir)))
  /\ remaining dir (fst (start tree (negb dir))) = walk dir (root tree)
  /\ snd (start tree (negb dir))
     = data (trav_it (fst (start tree (negb dir)))).
Proof.
  unfold start. cbn [fst snd]. split; [|split; [|reflexivity]].
  - split; [|apply path_ok_descend; constructor].
    destruct (is_nil (root tree)) eqn:Hr.
    + destruct (root tree); [intros _; reflexivity | discriminate].
    + destruct (descend_spec dir (root tree) [] Hr) as [H _].
      unfold trav_ok. congruence.
  - destruct (is_nil (root tree)) eqn:Hr.
    + destruct (root tree); [reflexivity | discriminate].
    + destruct (descend_spec dir (root tree) [] Hr) as [_ H].
      rewrite H. apply app_nil_r.
Qed.

Lemma move_spec (trav : jsw_atrav) (dir : bool) :
  trav_inv trav -> is_nil (trav_it trav) = false ->
  trav_inv (fst (move trav dir))
  /\ remaining dir trav = item (trav_it trav) ++ remaining dir (fst (move trav dir))
  /\ snd (move trav dir) = data (trav_it (fst (move trav dir))).
Proof.
  intros [Hok Hp] Hit. unfold move. cbn [fst snd].
  split; [|split; [|reflexivity]].
  - destruct (is_nil (link (trav_it trav) dir)) eqn:Hl; cbn [negb].
    + split; [apply unwind_spec | apply path_ok_unwind]; assumption.
    + destruct (descend_spec dir (link (trav_it trav) dir)
                  ((trav_it trav, dir) :: trav_path trav) Hl) as [H _].
      split; [unfold trav_ok; congruence|].
      apply path_ok_descend. constructor; assumption.
  - destruct (is_nil (link (trav_it trav) dir)) eqn:Hl; cbn [negb].
    + destruct (unwind_spec dir (trav_path trav) Hp) as [_ H].
      rewrite H. unfold remaining.
      destruct (link (trav_it trav) dir); [reflexivity | discriminate].
    + destruct (descend_spec dir (link (trav_it trav) dir)
                  ((trav_it trav, dir) :: trav_path trav) Hl) as [_ H].
      rewrite H. cbn [pending]. rewrite Bool.eqb_reflx.
      unfold remaining. reflexivity.
Qed.




(** ** The walk of an erasure and its description *)

Lemma demote_to_min (p c' : jsw_anode) (dir : bool) :
  is_nil p = false -> balanced p -> post_del (link p dir) c' ->
  fallen (set_link p dir c') = true ->
  demote_to Z.min (set_link p dir c') = demote (set_link p dir c').
Proof.
  intros Hp Hb (Hc & Hl & _) Hf.
  destruct p as [|lv x l r]; [discriminate|].
  assert (Heq : forall a b, 1 + Z.min (level a) (level b) = lv - 1 ->
                demote_to Z.min (Node lv x a b) = demote (Node lv x a b)).
  { intros a b H. unfold demote_to, demote.
    cbn [level link set_level]. rewrite H. reflexivity. }
  unfold fallen in Hf. cbn [balanced] in Hb.
  destruct Hb as (H1 & H2 & H3 & H4 & Hbl & Hbr).
  destruct dir; cbn [set_link link level] in *; apply Heq;
    apply orb_true_iff in Hf as [Hf|Hf]; apply Z.ltb_lt in Hf; lia.
Qed.

Lemma fixup_by_min (p c' : jsw_anode) (dir : bool) :
  is_nil p = false -> balanced p -> post_del (link p dir) c' ->
  fixup_by Z.min (set_link p dir c') = erase_fixup (set_link p dir c').
Proof.
  intros Hp Hb Hc. unfold fixup_by. rewrite erase_fixup_eq.
  fold (fallen (set_link p dir c')).
  destruct (fallen (set_link p dir c')) eqn:Hf; [|reflexivity].
  rewrite (demote_to_min p c' dir Hp Hb Hc Hf). reflexivity.
Qed.

Lemma rebalance_by_min (path : path_t) (c c' : jsw_anode) :
  path_ok path -> balanced (relink path c) -> post_del c c' ->
  rebalance_by Z.min path c' = erase_rebalance path c'.
Proof.
  revert c c'; induction path as [|[p dir] up IH]; intros c c' Hok Hb Hc.
  - reflexivity.
  - simpl in *. inversion Hok as [|? ? Hp Hup]; subst. simpl in Hp.
    assert (Hp' : is_nil (set_link p dir c) = false)
      by (rewrite is_nil_set_link; assumption).
    pose proof (balanced_relink_inv up _ Hup Hb) as Hpc.
    assert (Hc' : post_del (link (set_link p dir c) dir) c')
      by (rewrite link_set_link by assumption; assumption).
    pose proof (fixup_by_min (set_link p dir c) c' dir Hp' Hpc Hc') as Hfix.
    pose proof (post_del_step (set_link p dir c) c' dir Hp' Hpc Hc') as Hpost.
    rewrite set_link_set_link in Hfix, Hpost.
    rewrite Hfix. apply (IH (set_link p dir c)); assumption.
Qed.

Lemma size_range_run (ops : list (op E)) (tree : jsw_atree) :
  balanced (root tree) ->
  0 <= size tree < size_modulus ->
  0 <= size (run tree ops) < size_modulus.
Proof.
  revert tree; induction ops as [|o ops IH]; intros tree Hb Hs.
  - assumption.
  - cbn [run]. apply IH.
    + destruct o; [apply balanced_insert | apply balanced_erase]; assumption.
    + destruct (apply_op_cases tree o Hb)
        as [H|[(x & nr & A & B & -> & H1 & H2 & H)
              |(x & y & nr & A & B & -> & Hy & H1 & H2 & H)]];
        rewrite H; cbn [fst size]; [assumption | |];
        apply Z.mod_pos_bound; reflexivity.
Qed.

(** ** The paths fit in their arrays *)

Lemma balanced_height (t : jsw_anode) :
  balanced t ->
  Z.of_nat (height t) <= 2 * level t
  /\ (sngl t -> Z.of_nat (height t) <= 2 * level t - 1).
Proof.
  unfold sngl.
  induction t as [|lv x l IHl r IHr]; cbn [balanced height level link].
  - lia.
  - intros (H1 & H2 & H3 & H4 & Hl & Hr).
    destruct (IHl Hl) as [IHl1 _]. destruct (IHr Hr) as [IHr1 IHr2].
    rewrite Nat2Z.inj_succ, Nat2Z.inj_max. split; [|lia].
    destruct H3 as [H3|H3]; [|lia].
    assert (Z.of_nat (height r) <= 2 * level r - 1) by (apply IHr2; lia).
    lia.
Qed.

Lemma balanced_count (t : jsw_anode) :
  balanced t -> 2 ^ level t <= Z.of_nat (count_nodes t) + 1.
Proof.
  induction t as [|lv x l IHl r IHr]; cbn [balanced count_nodes level].
  - cbn. lia.
  - intros (H1 & H2 & H3 & H4 & Hl & Hr).
    specialize (IHl Hl). specialize (IHr Hr). rewrite H2 in IHl.
    assert (Hr' : 2 ^ (lv - 1) <= Z.of_nat (count_nodes r) + 1).
    { destruct H3 as [H3|H3]; rewrite H3 in IHr; [|assumption].
      assert (2 ^ (lv - 1) <= 2 ^ lv)
        by (apply Z.pow_le_mono_r; lia).
      lia. }
    replace lv with (Z.succ (lv - 1)) at 1 by lia.
    rewrite Z.pow_succ_r by lia. lia.
Qed.

Lemma height_limit (t : jsw_anode) :
  balanced t -> Z.of_nat (count_nodes t) < 2 ^ 32 - 1 ->
  (height t < HEIGHT_LIMIT - 1)%nat.
Proof.
  intros Hb Hc. pose proof (balanced_count t Hb) as Hn.
  pose proof (balanced_height t Hb) as [Hh _].
  pose proof (balanced_facts t Hb) as [H0 _].
  assert (level t < 32).
  { destruct (Z.lt_ge_cases (level t) 32) as [H|H]; [assumption|].
    assert (2 ^ 32 <= 2 ^ level t) by (apply Z.pow_le_mono_r; lia).
    lia. }
  unfold HEIGHT_LIMIT. lia.
Qed.

Lemma height_link (t : jsw_anode) (dir : bool) :
  is_nil t = false -> (height (link t dir) < height t)%nat.
Proof.
  destruct t as [|lv x l r]; [discriminate|]. intros _.
  destruct dir; cbn [link height]; lia.
Qed.

Lemma length_insert_path (it : jsw_anode) (x : E) (path : path_t) :
  (length (insert_path it x path) <= height it + length path)%nat.
Proof.
  revert path; induction it as [|lv y l IHl r IHr]; intros path.
  - simpl. lia.
  - cbn [insert_path height]. destruct (cmp y x <? 0).
    + destruct (is_nil r); [simpl; lia|].
      specialize (IHr ((Node lv y l r, true) :: path)). simpl in IHr. lia.
    + destruct (is_nil l); [simpl; lia|].
      specialize (IHl ((Node lv y l r, false) :: path)). simpl in IHl. lia.
Qed.

Lemma length_erase_path (it : jsw_anode) (x : E) (path : path_t)
      (found : jsw_anode) (path' : path_t) :
  erase_path it x path = Some (found, path') ->
  (length path' + height found <= length path + height it)%nat.
Proof.
  revert path; induction it as [|lv y l IHl r IHr]; intros path.
  - discriminate.
  - cbn [erase_path height]. destruct (cmp y x =? 0).
    + intros [= <- <-]. cbn [height]. lia.
    + destruct (cmp y x <? 0); intros H;
        [apply IHr in H | apply IHl in H]; simpl in H; lia.
Qed.

Lemma length_heir_path (t : jsw_anode) (path : path_t) :
  (length (snd (heir_path t path)) + height (fst (heir_path t path))
   <= length path + height t)%nat.
Proof.
  revert path; induction t as [|lv y l IHl r IHr]; intros path.
  - simpl. lia.
  - cbn [heir_path height]. destruct (is_nil l); [cbn; lia|].
    specialize (IHl ((Node lv y l r, false) :: path)). simpl in IHl. lia.
Qed.

Lemma length_erase_unlink (it : jsw_anode) (path : path_t) :
  is_nil it = false ->
  (S (length (fst (erase_unlink it path))) <= length path + height it)%nat.
Proof.
  intros Hit. unfold erase_unlink.
  destruct (is_nil (link it false) || is_nil (link it true)) eqn:Hc.
  - destruct it; [discriminate|]. cbn [fst height]. lia.
  - apply orb_false_elim in Hc as [_ Hr].
    pose proof (length_heir_path (link it true) []) as Hh.
    destruct (heir_path_spec (link it true) [] Hr)
      as (heir & hpath & _ & Hp & _ & _ & _ & Hn & _).
    rewrite Hp in *. cbn [fst snd length] in *.
    rewrite length_app. cbn [length].
    pose proof (height_link it true Hit).
    destruct heir; [discriminate|]. cbn [height] in Hh. lia.
Qed.

Lemma path_room_descend (h : nat) (t : jsw_anode) (dd : bool) (path : path_t) :
  path_room h path -> (length path + height t <= h)%nat ->
  trav_room h (descend t dd path).
Proof.
  revert path; induction t as [|lv x l IHl r IHr]; intros path Hp Hl.
  - split; assumption.
  - cbn [descend].
    assert (Hc : path_room h ((Node lv x l r, dd) :: path))
      by (split; assumption).
    cbn [height] in Hl. destruct dd.
    + destruct (is_nil r); [split; assumption|].
      apply IHr; [assumption|]. simpl. lia.
    + destruct (is_nil l); [split; assumption|].
      apply IHl; [assumption|]. simpl. lia.
Qed.

Lemma path_room_unwind (h : nat) (path : path_t) (dir : bool) :
  path_room h path -> trav_room h (unwind path dir).
Proof.
  induction path as [|[p d] up IH]; intros Hp.
  - split; [simpl; lia | exact I].
  - destruct Hp as [H1 H2]. cbn [unwind].
    destruct (Bool.eqb d dir); [apply IH; assumption|].
    split; assumption.
Qed.

Lemma trav_room_move (h : nat) (trav : jsw_atrav) (dir : bool) :
  trav_room h trav -> trav_room h (fst (move trav dir)).
Proof.
  intros [H1 H2]. unfold move. cbn [fst].
  destruct (is_nil (link (trav_it trav) dir)) eqn:Hl; cbn [negb].
  - apply path_room_unwind. assumption.
  - assert (Hit : is_nil (trav_it trav) = false)
      by (destruct (trav_it trav); [discriminate | reflexivity]).
    pose proof (height_link (trav_it trav) dir Hit).
    apply path_room_descend; [split; assumption|]. simpl. lia.
Qed.

(** X12. The paths fit their arrays: on a tree built by the code that has
    fewer than 2^32 - 1 nodes, the path of an insertion, the path of an
    erasure (with the node it stops on, the sentinel when nothing is found)
    and the path of a cursor, wherever it is moved, have at most
    HEIGHT_LIMIT entries. *)
Lemma paths_fit (ops : list (op E)) (x : E) (d : bool) (dirs : list bool) :
  Z.of_nat (count_nodes (root (run jsw_anew ops))) < 2 ^ 32 - 1 ->
  (length (insert_path (root (run jsw_anew ops)) x []) <= HEIGHT_LIMIT)%nat
  /\ (S (height (root (run jsw_anew ops))) <= HEIGHT_LIMIT)%nat
  /\ (forall it path,
        erase_path (root (run jsw_anew ops)) x [] = Some (it, path) ->
        (S (length path) <= HEIGHT_LIMIT
         /\ S (length (fst (erase_unlink it path))) <= HEIGHT_LIMIT)%nat)
  /\ (length (trav_path (moves (fst (start (run jsw_anew ops) d)) dirs))
      <= HEIGHT_LIMIT)%nat.
Proof.
  intros Hn.
  assert (Hb : balanced (root (run jsw_anew ops)))
    by (apply balanced_run; exact I).
  pose proof (height_limit _ Hb Hn) as Hh.
  set (t := run jsw_anew ops) in *.
  unfold HEIGHT_LIMIT in *.
  repeat split.
  - pose proof (length_insert_path (root t) x []). simpl in *. lia.
  - lia.
  - pose proof (length_erase_path _ _ _ _ _ H) as Hl.
    apply erase_path_some in H as (_ & _ & lv & y & l & r & -> & _).
    cbn [height length] in *. lia.
  - pose proof (length_erase_path _ _ _ _ _ H) as Hl.
    apply erase_path_some in H as (_ & _ & lv & y & l & r & -> & _).
    pose proof (length_erase_unlink (Node lv y l r) path eq_refl).
    cbn [length] in Hl. lia.
  - assert (G : forall trav, trav_room (height (root t)) trav ->
                (length (trav_path (moves trav dirs)) <= 64)%nat).
    { induction dirs as [|d' dirs IH]; intros trav Hr.
      - destruct Hr as [Hr _]. simpl. lia.
      - simpl. apply IH. apply trav_room_move. assumption. }
    apply G. unfold start. cbn [fst].
    apply path_room_descend; [exact I | simpl; lia].
Qed.

(** ** Lists in order *)

Lemma sorted_app (A B : list E) :
  sorted (A ++ B) <->
  sorted A /\ sorted B /\ (forall a b, In a A -> In b B -> le a b).
Proof.
  unfold sorted. induction A as [|a A IH]; simpl.
  - split; [intros H; repeat split; [constructor | assumption | tauto]|].
    tauto.
  - split.
    + intros H. apply StronglySorted_inv in H as [H1 H2].
      apply IH in H1 as (H1 & H3 & H4).
      rewrite Forall_app in H2. destruct H2 as [H2 H5].
      repeat split; auto.
      * constructor; assumption.
      * intros a' b [<-|Ha] Hb; [|auto].
        rewrite Forall_forall in H5. auto.
    + intros (H1 & H2 & H3). apply StronglySorted_inv in H1 as [H1 H4].
      constructor.
      * apply IH. repeat split; auto.
      * apply Forall_app. split; [assumption|].
        apply Forall_forall. intros b Hb. apply H3; auto.
Qed.

Lemma sorted_remove (A B : list E) (y : E) :
  sorted (A ++ y :: B) -> sorted (A ++ B).
Proof.
  rewrite !sorted_app. intros (H1 & H2 & H3).
  apply StronglySorted_inv in H2 as [H2 _].
  repeat split; auto. intros a b Ha Hb. apply H3; [assumption | right; assumption].
Qed.


Lemma count_eq_app (e : E) (A B : list E) :
  count_eq e (A ++ B) = (count_eq e A + count_eq e B)%nat.
Proof. unfold count_eq. rewrite filter_app, length_app. reflexivity. Qed.

Lemma count_eq_cons (e y : E) (B : list E) :
  count_eq e (y :: B)
  = Nat.add (if cmp y e =? 0 then 1%nat else 0%nat) (count_eq e B).
Proof. unfold count_eq. simpl. destruct (cmp y e =? 0); reflexivity. Qed.

Lemma count_eq_pos (e : E) (l : list E) :
  (0 < count_eq e l)%nat <-> exists y, In y l /\ cmp y e = 0.
Proof.
  induction l as [|a l IH].
  - simpl. split; [unfold count_eq; simpl; lia | intros (y & [] & _)].
  - rewrite count_eq_cons. destruct (Z.eqb_spec (cmp a e) 0) as [H|H].
    + split; [|lia]. intros _. exists a. simpl. auto.
    + simpl. rewrite IH. split.
      * intros (y & Hy & Hc). exists y. simpl. auto.
      * intros (y & [<-|Hy] & Hc); [contradiction|]. exists y. auto.
Qed.

Section Order.

(** [cmp] orders the items as [strcmp] orders strings, and a clone compares
    equal to its original. *)
Hypothesis cmp_antisym : forall x y, cmp x y < 0 <-> 0 < cmp y x.
Hypothesis cmp_trans :
  forall x y z, cmp x y <= 0 -> cmp y z <= 0 -> cmp x z <= 0.
Hypothesis dup_same : forall x, cmp (dup x) x = 0.

Lemma cmp_sym0 (x y : E) : cmp x y = 0 -> cmp y x = 0.
Proof.
  pose proof (cmp_antisym x y). pose proof (cmp_antisym y x). lia.
Qed.

Lemma cmp_ge_le (x y : E) : 0 <= cmp x y <-> cmp y x <= 0.
Proof.
  pose proof (cmp_antisym x y). pose proof (cmp_antisym y x). lia.
Qed.

Lemma cmp_le_lt (x y z : E) : cmp x y <= 0 -> cmp y z < 0 -> cmp x z < 0.
Proof.
  intros H1 H2.
  destruct (Z.lt_ge_cases (cmp x z) 0) as [H|H]; [assumption|].
  apply cmp_ge_le in H. pose proof (cmp_trans _ _ _ H H1).
  apply cmp_antisym in H2. lia.
Qed.

Lemma cmp_ge_ge (x y z : E) : 0 <= cmp y x -> cmp y z <= 0 -> 0 <= cmp z x.
Proof.
  intros H1 H2. apply cmp_ge_le. apply cmp_ge_le in H1.
  apply (cmp_trans _ _ _ H1 H2).
Qed.

Lemma cmp_eq_iff (x y e : E) : cmp x y = 0 -> cmp x e = 0 <-> cmp y e = 0.
Proof.
  intros Hxy. pose proof (cmp_sym0 _ _ Hxy) as Hyx.
  assert (G : forall a b, cmp a b = 0 -> cmp b e = 0 -> cmp a e = 0).
  { intros a b Hab Hbe.
    assert (H1 : cmp a e <= 0) by (apply (cmp_trans a b e); lia).
    assert (H2 : cmp e a <= 0).
    { apply (cmp_trans e b a); [apply cmp_sym0 in Hbe | apply cmp_sym0 in Hab];
        lia. }
    apply cmp_ge_le in H2. lia. }
  split; intros H; [apply (G y x) | apply (G x y)]; assumption.
Qed.

Lemma cmp_eqb_compat (x y e : E) :
  cmp x y = 0 -> (cmp x e =? 0) = (cmp y e =? 0).
Proof.
  intros H. pose proof (cmp_eq_iff x y e H).
  destruct (Z.eqb_spec (cmp x e) 0), (Z.eqb_spec (cmp y e) 0); tauto.
Qed.

(** *** Lookup in a tree in order *)

Lemma afind_loop_sorted (it : jsw_anode) (e y : E) :
  sorted (inorder it) -> In y (inorder it) -> cmp y e = 0 ->
  is_nil (afind_loop it e) = false.
Proof.
  induction it as [|lv z l IHl r IHr]; intros Hs Hin Hy; [destruct Hin|].
  cbn [inorder] in Hs, Hin. cbn [afind_loop].
  destruct (Z.eqb_spec (cmp z e) 0) as [H0|H0]; [reflexivity|].
  apply sorted_app in Hs as (Hl & Hr & Hlr).
  apply StronglySorted_inv in Hr as [Hr Hzr].
  rewrite Forall_forall in Hzr.
  apply in_app_or in Hin as [Hin|[<-|Hin]]; [| contradiction |].
  - (* y on the low side: the probe is not above z *)
    assert (Hyz : le y z) by (apply Hlr; [assumption | left; reflexivity]).
    destruct (Z.ltb_spec (cmp z e) 0) as [Hlt|Hge].
    + exfalso. apply cmp_sym0 in Hy.
      assert (cmp e z <= 0) by (apply (cmp_trans e y z); unfold le in *; lia).
      apply cmp_antisym in Hlt. lia.
    + apply IHl; assumption.
  - assert (Hzy : le z y) by (apply Hzr; assumption).
    destruct (Z.ltb_spec (cmp z e) 0) as [Hlt|Hge].
    + apply IHr; assumption.
    + exfalso.
      assert (cmp z e <= 0) by (apply (cmp_trans z y e); unfold le in *; lia).
      lia.
Qed.

Lemma afind_present (tree : jsw_atree) (e : E) :
  sorted (elements tree) ->
  (exists y, jsw_afind tree e = Some y /\ In y (elements tree) /\ cmp y e = 0)
  <-> (0 < count_eq e (elements tree))%nat.
Proof.
  intros Hs. rewrite count_eq_pos. unfold jsw_afind, elements in *. split.
  - intros (y & _ & H1 & H2). exists y. auto.
  - intros (y & H1 & H2).
    pose proof (afind_loop_sorted (root tree) e y Hs H1 H2) as Hf.
    destruct (afind_loop_some (root tree) e)
      as [H|(lv & y' & l & r & H & Hc & Hin)].
    + rewrite H in Hf. discriminate.
    + exists y'. rewrite H. auto.
Qed.

(** *** Insertion and erasure keep the items in order *)

Lemma insert_path_bounds (it : jsw_anode) (x : E) (path : path_t) :
  sorted (inorder it) ->
  Forall (fun a => cmp a x < 0) (path_before path) ->
  Forall (fun b => 0 <= cmp b x) (path_after path) ->
  Forall (fun a => cmp a x < 0) (path_before (insert_path it x path))
  /\ Forall (fun b => 0 <= cmp b x) (path_after (insert_path it x path)).
Proof.
  revert path; induction it as [|lv y l IHl r IHr]; intros path Hs Hb Ha.
  - auto.
  - cbn [inorder] in Hs. apply sorted_app in Hs as (Hl & Hr & Hlr).
    apply StronglySorted_inv in Hr as [Hr Hyr].
    rewrite Forall_forall in Hyr.
    assert (Hstep :
      Forall (fun a => cmp a x < 0)
        (path_before ((Node lv y l r, cmp y x <? 0) :: path))
      /\ Forall (fun b => 0 <= cmp b x)
        (path_after ((Node lv y l r, cmp y x <? 0) :: path))).
    { cbn [path_before path_after link item data].
      destruct (Z.ltb_spec (cmp y x) 0) as [Hlt|Hge].
      - split; [|assumption]. apply Forall_app. split; [assumption|].
        apply Forall_app. split; [|repeat constructor; assumption].
        apply Forall_forall. intros a Hin.
        apply (cmp_le_lt a y x); [|assumption].
        apply Hlr; [assumption | left; reflexivity].
      - split; [rewrite app_nil_r; assumption|].
        apply Forall_app. split; [|assumption].
        constructor; [assumption|].
        apply Forall_forall. intros b Hin.
        apply (cmp_ge_ge x y b); [assumption | apply Hyr; assumption]. }
    destruct Hstep as [Hb' Ha'].
    cbn [insert_path]. destruct (cmp y x <? 0).
    + destruct (is_nil r); [split; assumption | apply IHr; assumption].
    + destruct (is_nil l); [split; assumption | apply IHl; assumption].
Qed.

Lemma sorted_insert (malloc_ok : bool) (tree : jsw_atree) (x : E) :
  sorted (elements tree) ->
  sorted (elements (fst (jsw_ainsert malloc_ok tree x))).
Proof.
  intros Hs. destruct malloc_ok; [|rewrite ainsert_fail; assumption].
  destruct (ainsert_ok tree x) as (nr & H1 & H2 & H3).
  rewrite H1. unfold elements in *. cbn [fst root]. rewrite H3.
  destruct (insert_path_bounds (root tree) x [] Hs (Forall_nil _)
              (Forall_nil _)) as [Hb Ha].
  rewrite H2 in Hs. apply sorted_app in Hs as (HA & HB & HAB).
  rewrite Forall_forall in Hb, Ha.
  pose proof (dup_same x) as Hd. pose proof (cmp_sym0 _ _ Hd) as Hd'.
  apply sorted_app. repeat split; [assumption | |].
  - constructor; [assumption|]. apply Forall_forall. intros b Hin.
    apply Ha in Hin. apply cmp_ge_le in Hin.
    apply (cmp_trans (dup x) x b); [lia | assumption].
  - intros a b Hina [<-|Hinb]; [|auto].
    apply Hb in Hina. apply (cmp_trans a x (dup x)); lia.
Qed.

Lemma sorted_erase (tree : jsw_atree) (x : E) :
  balanced (root tree) -> sorted (elements tree) ->
  sorted (elements (fst (jsw_aerase tree x))).
Proof.
  intros Hb Hs.
  destruct (aerase_cases tree x Hb)
    as [[_ H]|(y & A & B & nr & H1 & H2 & H3 & H4)].
  - rewrite H. assumption.
  - rewrite H4. unfold elements in *. cbn [fst root].
    rewrite H3. rewrite H2 in Hs. apply (sorted_remove A B y Hs).
Qed.

Lemma sorted_run (ops : list (op E)) (tree : jsw_atree) :
  balanced (root tree) -> sorted (elements tree) ->
  sorted (elements (run tree ops)).
Proof.
  revert tree; induction ops as [|o ops IH]; intros tree Hb Hs; simpl.
  - assumption.
  - apply IH.
    + destruct o; [apply balanced_insert | apply balanced_erase]; assumption.
    + destruct o; [apply sorted_insert | apply sorted_erase]; assumption.
Qed.

(** *** The items that compare equal to [e], along a run *)

Lemma run_count_eq (e : E) (ops : list (op E)) (tree : jsw_atree) :
  balanced (root tree) ->
  Z.of_nat (count_eq e (elements (run tree ops)))
  = Z.of_nat (count_eq e (elements tree))
    + Z.of_nat (tally (inserts_of e) tree ops)
    - Z.of_nat (tally (erases_of e) tree ops).
Proof.
  revert tree; induction ops as [|o ops IH]; intros tree Hb.
  - simpl. lia.
  - cbn [run tally].
    assert (Hb' : balanced (root (fst (apply_op tree o))))
      by (destruct o; [apply balanced_insert | apply balanced_erase]; auto).
    rewrite (IH _ Hb'). clear IH.
    destruct (apply_op_cases tree o Hb)
      as [H|[(x & nr & A & B & -> & H1 & H2 & H)
            |(x & y & nr & A & B & -> & Hy & H1 & H2 & H)]];
      rewrite H; unfold elements in *;
      cbn [fst snd root inserts_of erases_of andb negb Z.eqb].
    + lia.
    + rewrite H1, H2, !count_eq_app, count_eq_cons.
      rewrite (cmp_eqb_compat (dup x) x e (dup_same x)).
      destruct (cmp x e =? 0); lia.
    + rewrite H1, H2, !count_eq_app, count_eq_cons.
      rewrite (cmp_eqb_compat y x e Hy).
      destruct (cmp x e =? 0); lia.
Qed.

(** C1. Membership: after any sequence of calls on a new tree, [jsw_afind]
    returns a stored item that compares equal to [e] exactly when more
    insertions of items equal to [e] have succeeded than erasures of them
    (each successful insertion stores a node of its own, each successful
    erasure removes one); otherwise it returns NULL. *)
Theorem find_membership (ops : list (op E)) (e : E) :
  ((exists y, jsw_afind (run jsw_anew ops) e = Some y
              /\ In y (elements (run jsw_anew ops)) /\ cmp y e = 0)
   <-> (tally (erases_of e) jsw_anew ops
        < tally (inserts_of e) jsw_anew ops)%nat)
  /\ ((tally (inserts_of e) jsw_anew ops
       <= tally (erases_of e) jsw_anew ops)%nat ->
      jsw_afind (run jsw_anew ops) e = None).
Proof.
  assert (Hs : sorted (elements (run jsw_anew ops)))
    by (apply sorted_run; [exact I | constructor]).
  pose proof (run_count_eq e ops jsw_anew I) as Hc.
  change (count_eq e (elements jsw_anew)) with O in Hc.
  split.
  - rewrite (afind_present (run jsw_anew ops) e Hs). lia.
  - intros Hle. unfold jsw_afind.
    rewrite afind_loop_none; [reflexivity|].
    intros y Hin Hy.
    assert (0 < count_eq e (elements (run jsw_anew ops)))%nat
      by (apply count_eq_pos; exists y; auto).
    lia.
Qed.


(** *** One call on a tree in order *)

Lemma afind_none_iff (tree : jsw_atree) (e : E) :
  sorted (elements tree) ->
  jsw_afind tree e = None <-> count_eq e (elements tree) = O.
Proof.
  intros Hs. pose proof (afind_present tree e Hs) as Hp.
  unfold jsw_afind, elements in *. split.
  - intros Hn.
    destruct (count_eq e (inorder (root tree))) eqn:Hc; [reflexivity|].
    destruct Hp as [_ Hp]. destruct Hp as (y & Hy & _); [lia|].
    rewrite Hn in Hy. discriminate.
  - intros Hc.
    destruct (afind_loop_some (root tree) e)
      as [H|(lv & y & l & r & H & Hy & Hin)]; [rewrite H; reflexivity|].
    destruct Hp as [Hp _]. rewrite H in Hp.
    assert (0 < count_eq e (inorder (root tree)))%nat
      by (apply Hp; exists y; auto).
    lia.
Qed.

Lemma lookup_item_count (tree : jsw_atree) (e : E) :
  sorted (elements tree) ->
  lookup_item tree e = negb (count_eq e (elements tree) =? 0)%nat.
Proof.
  intros Hs. pose proof (afind_none_iff tree e Hs) as H.
  unfold lookup_item. destruct (jsw_afind tree e).
  - destruct (Nat.eqb_spec (count_eq e (elements tree)) 0) as [Hc|Hc];
      [|reflexivity].
    apply H in Hc. discriminate.
  - destruct H as [H _]. rewrite (H eq_refl). reflexivity.
Qed.

Lemma split_unique (P : E -> Prop) (A B A' B' : list E) (z y : E) :
  (forall a, In a (A ++ B) -> ~ P a) -> P y ->
  A ++ z :: B = A' ++ y :: B' ->
  A = A' /\ z = y /\ B = B'.
Proof.
  revert A'; induction A as [|a A IH]; intros A' Hn Hy Heq.
  - destruct A' as [|a' A']; cbn [app] in *.
    + injection Heq as -> ->. auto.
    + injection Heq as -> ->. exfalso.
      apply (Hn y); [|assumption]. apply in_elt.
  - destruct A' as [|a' A']; cbn [app] in *.
    + injection Heq as -> _. exfalso. apply (Hn y); [|assumption].
      left. reflexivity.
    + injection Heq as -> Heq.
      destruct (IH A') as (-> & -> & ->); auto.
      intros b Hb. apply Hn. right. assumption.
Qed.

(** X8. Where an insertion puts the item: in a tree whose items are in
    order, the clone goes after every stored item that is smaller and before
    every stored item that is not, so before the items that compare equal to
    it; the other items keep their places. *)
Theorem insert_before_equals (tree : jsw_atree) (x : E) :
  sorted (elements tree) ->
  exists A B,
    elements tree = A ++ B
    /\ elements (fst (jsw_ainsert true tree x)) = A ++ dup x :: B
    /\ Forall (fun a => cmp a x < 0) A
    /\ Forall (fun b => 0 <= cmp b x) B.
Proof.
  intros Hs. destruct (ainsert_ok tree x) as (nr & H1 & H2 & H3).
  destruct (insert_path_bounds (root tree) x [] Hs (Forall_nil _)
              (Forall_nil _)) as [Hb Ha].
  exists (path_before (insert_path (root tree) x [])),
    (path_after (insert_path (root tree) x [])).
  rewrite H1. unfold elements in *. cbn [fst root]. auto.
Qed.

(** X9. An item inserted is found: in a tree whose items are in order,
    after an insertion whose allocation succeeds [jsw_afind] returns, for
    the same item, a stored item that compares equal to it. *)
Theorem insert_then_find (tree : jsw_atree) (x : E) :
  sorted (elements tree) ->
  exists y,
    jsw_afind (fst (jsw_ainsert true tree x)) x = Some y
    /\ In y (elements (fst (jsw_ainsert true tree x)))
    /\ cmp y x = 0.
Proof.
  intros Hs.
  apply (afind_present _ x (sorted_insert true tree x Hs)).
  apply count_eq_pos. exists (dup x). split; [|apply dup_same].
  destruct (ainsert_ok tree x) as (nr & H1 & H2 & H3).
  rewrite H1. unfold elements. cbn [fst root]. rewrite H3. apply in_elt.
Qed.

Lemma count_eq_apply_op_other (tree : jsw_atree) (o : op E) (x e : E) :
  balanced (root tree) ->
  (o = Erase x \/ exists malloc_ok, o = Insert malloc_ok x) ->
  cmp x e <> 0 ->
  count_eq e (elements (fst (apply_op tree o)))
  = count_eq e (elements tree).
Proof.
  intros Hb Ho Hx.
  assert (Hxe : (cmp x e =? 0) = false) by (apply Z.eqb_neq; assumption).
  destruct (apply_op_cases tree o Hb)
    as [H|[(x' & nr & A & B & -> & H1 & H2 & H)
          |(x' & y & nr & A & B & -> & Hy & H1 & H2 & H)]];
    rewrite H; unfold elements in *; cbn [fst root]; [reflexivity | |].
  - destruct Ho as [Ho|[ok Ho]]; [discriminate|]. injection Ho as _ ->.
    rewrite H1, H2, !count_eq_app, count_eq_cons.
    rewrite (cmp_eqb_compat (dup x) x e (dup_same x)), Hxe. reflexivity.
  - destruct Ho as [Ho|[ok Ho]]; [|discriminate]. injection Ho as ->.
    rewrite H1, H2, !count_eq_app, count_eq_cons.
    rewrite (cmp_eqb_compat y x e Hy), Hxe. reflexivity.
Qed.

(** X10. Other keys are not disturbed: on a tree with balanced levels and
    items in order, inserting or erasing [x] changes nothing to the lookup
    of an item [e] that does not compare equal to [x]: [jsw_afind] returns
    NULL for [e] after the call exactly when it did before, and the number
    of stored items equal to [e] is the same. *)
Theorem other_keys_undisturbed (malloc_ok : bool) (tree : jsw_atree)
        (x e : E) :
  balanced (root tree) -> sorted (elements tree) -> cmp x e <> 0 ->
  (jsw_afind (fst (jsw_ainsert malloc_ok tree x)) e = None
   <-> jsw_afind tree e = None)
  /\ (jsw_afind (fst (jsw_aerase tree x)) e = None
      <-> jsw_afind tree e = None)
  /\ count_eq e (elements (fst (jsw_ainsert malloc_ok tree x)))
     = count_eq e (elements tree)
  /\ count_eq e (elements (fst (jsw_aerase tree x)))
     = count_eq e (elements tree).
Proof.
  intros Hb Hs Hx.
  pose proof (count_eq_apply_op_other tree (Insert malloc_ok x) x e Hb
                (or_intror (ex_intro _ malloc_ok eq_refl)) Hx) as Hi.
  pose proof (count_eq_apply_op_other tree (Erase x) x e Hb
                (or_introl eq_refl) Hx) as He.
  cbn [apply_op] in Hi, He.
  rewrite (afind_none_iff _ e (sorted_insert malloc_ok tree x Hs)).
  rewrite (afind_none_iff _ e (sorted_erase tree x Hb Hs)).
  rewrite (afind_none_iff _ e Hs), Hi, He. tauto.
Qed.

Lemma insert_erase_elements (tree : jsw_atree) (x : E) :
  balanced (root tree) -> sorted (elements tree) ->
  (forall y, In y (elements tree) -> cmp y x <> 0) ->
  exists nr,
    jsw_aerase (fst (jsw_ainsert true tree x)) x
    = (mk_atree nr (((size tree + 1) mod size_modulus - 1) mod size_modulus)
                (released tree ++ [dup x]) (S (freed tree)), 1)
    /\ inorder nr = elements tree.
Proof.
  intros Hb Hs Hnew.
  pose proof (balanced_insert true tree x Hb) as Hb1.
  pose proof (sorted_insert true tree x Hs) as Hs1.
  destruct (ainsert_ok tree x) as (nr1 & H1 & H2 & H3).
  rewrite H1 in *. cbn [fst root] in Hb1. unfold elements in *.
  cbn [fst root] in Hs1.
  destruct (aerase_cases (mk_atree nr1 ((size tree + 1) mod size_modulus)
                            (released tree) (freed tree)) x Hb1)
    as [[Hf _]|(y & A & B & nr & Hy & HA & HB & Hr)].
  - exfalso. cbn [root] in Hf.
    pose proof (afind_loop_sorted nr1 x (dup x) Hs1) as Hp.
    rewrite Hf in Hp. discriminate Hp; [|apply dup_same].
    rewrite H3. apply in_elt.
  - unfold elements in HA. cbn [fst root size released freed] in *.
    rewrite H3 in HA.
    destruct (split_unique (fun a => cmp a x = 0)
                (path_before (insert_path (root tree) x []))
                (path_after (insert_path (root tree) x [])) A B (dup x) y)
      as (HeA & Hey & HeB); auto.
    { rewrite <- H2. assumption. }
    subst A y B. exists nr. rewrite Hr, HB, H2. auto.
Qed.

(** X11. Inserting a new key and erasing it again: on a tree with balanced
    levels and items in order that stores no item equal to [x], an insertion
    of [x] followed by an erasure of [x] leaves the same items in the same
    order and the same [size]; the erasure succeeds, and the one item it
    passes to [rel] is the clone the insertion made. *)
Theorem insert_then_erase (tree : jsw_atree) (x : E) :
  balanced (root tree) -> sorted (elements tree) ->
  (forall y, In y (elements tree) -> cmp y x <> 0) ->
  snd (jsw_aerase (fst (jsw_ainsert true tree x)) x) = 1
  /\ elements (fst (jsw_aerase (fst (jsw_ainsert true tree x)) x))
     = elements tree
  /\ size (fst (jsw_aerase (fst (jsw_ainsert true tree x)) x))
     = size tree mod size_modulus
  /\ released (fst (jsw_aerase (fst (jsw_ainsert true tree x)) x))
     = released tree ++ [dup x]
  /\ freed (fst (jsw_aerase (fst (jsw_ainsert true tree x)) x))
     = S (freed tree).
Proof.
  intros Hb Hs Hnew.
  destruct (insert_erase_elements tree x Hb Hs Hnew) as (nr & H & Hin).
  rewrite H. unfold elements at 1. cbn [fst snd root size released freed].
  repeat split; auto.
  unfold size_modulus. rewrite Zminus_mod_idemp_l. f_equal. lia.
Qed.

(** *** The test of the containers *)

Lemma length_store (j : nat) (b : bool) (a : list bool) :
  length (store j b a) = length a.
Proof.
  revert j; induction a as [|x a IH]; intros [|j]; cbn [store length]; auto.
Qed.

Lemma nth_store_same (j : nat) (b : bool) (a : list bool) :
  (j < length a)%nat -> nth j (store j b a) false = b.
Proof.
  revert j; induction a as [|x a IH]; intros [|j] H; cbn [store nth length] in *;
    try lia; [reflexivity|]. apply IH. lia.
Qed.

Lemma nth_store_other (j k : nat) (b : bool) (a : list bool) :
  j <> k -> nth k (store j b a) false = nth k a false.
Proof.
  revert j k; induction a as [|x a IH]; intros [|j] [|k] H;
    cbn [store nth]; try reflexivity; try contradiction.
  apply IH. lia.
Qed.

Lemma count_true_store (j : nat) (b : bool) (a : list bool) :
  (j < length a)%nat ->
  (count_true (store j b a) + (if nth j a false then 1 else 0)
   = count_true a + (if b then 1 else 0))%nat.
Proof.
  revert j; induction a as [|x a IH]; intros [|j] H;
    cbn [store nth length count_true] in *; try lia.
  specialize (IH j). lia.
Qed.

Lemma count_true_le (a : list bool) : (count_true a <= length a)%nat.
Proof.
  induction a as [|[|] a IH]; cbn [count_true length]; lia.
Qed.

Lemma count_true_false (j : nat) (a : list bool) :
  (j < length a)%nat -> nth j a false = false ->
  (count_true a < length a)%nat.
Proof.
  revert j; induction a as [|x a IH]; intros [|j] H Hn;
    cbn [nth length count_true] in *; try lia.
  - subst x. pose proof (count_true_le a). lia.
  - specialize (IH j ltac:(lia) Hn). destruct x; lia.
Qed.

Lemma count_true_true (j : nat) (a : list bool) :
  nth j a false = true -> (1 <= count_true a)%nat.
Proof.
  revert j; induction a as [|x a IH]; intros [|j] Hn;
    cbn [nth count_true] in *; try discriminate.
  - subst x. lia.
  - specialize (IH j Hn). lia.
Qed.

Lemma nth_repeat_false (j n : nat) : nth j (repeat false n) false = false.
Proof.
  revert j; induction n as [|n IH]; intros [|j]; cbn [repeat nth]; auto.
Qed.

Lemma count_true_repeat_false (n : nat) : count_true (repeat false n) = O.
Proof. induction n as [|n IH]; cbn [repeat count_true]; auto. Qed.

Lemma cmp_refl (x : E) : cmp x x = 0.
Proof. pose proof (cmp_antisym x x). lia. Qed.

Section Harness.

(** The [dup] of the tree with the outcome of its allocation: the clone, or
    NULL. *)
Variable dup_f : bool -> E -> option E.
Hypothesis dup_f_spec :
  forall ok x, dup_f ok x = if ok then Some (dup x) else None.

(** The texts of two indices compare equal only if the indices are the
    same. *)
Variable item_of : nat -> E.
Hypothesis item_inj :
  forall i j, cmp (item_of i) (item_of j) = 0 -> i = j.

Lemma item_eqb (i j : nat) :
  (cmp (item_of i) (item_of j) =? 0) = (i =? j)%nat.
Proof.
  destruct (Nat.eqb_spec i j) as [->|Hn].
  - rewrite cmp_refl. reflexivity.
  - apply Z.eqb_neq. intros H. apply Hn, item_inj, H.
Qed.

Lemma test_inv_init :
  test_inv item_of (mk_test jsw_anew (repeat false N_MEMBERS)).
Proof.
  unfold test_inv. cbn [cont members jsw_anew root size elements inorder].
  rewrite repeat_length, count_true_repeat_false.
  repeat split; auto; [constructor|].
  intros j _. rewrite nth_repeat_false. reflexivity.
Qed.

Lemma step_index (r : Z) :
  (Z.to_nat (r mod Z.of_nat N_MEMBERS) < N_MEMBERS)%nat.
Proof.
  assert (H : 0 < Z.of_nat N_MEMBERS) by (unfold N_MEMBERS; lia).
  pose proof (Z.mod_pos_bound r _ H). lia.
Qed.

Lemma step_inv (r : Z) (malloc_ok dup_ok : bool) (st : test_state) :
  test_inv item_of st ->
  match step dup_f item_of r malloc_ok dup_ok st with
  | None => malloc_ok = true /\ dup_ok = false
  | Some (inl code) => code = 3 /\ malloc_ok = false
  | Some (inr st') => test_inv item_of st'
  end.
Proof.
  intros (Hb & Hs & Hlen & Hel & Hsz & Hcnt). unfold step.
  pose proof (step_index r) as Hj.
  set (j := Z.to_nat (r mod Z.of_nat N_MEMBERS)) in *.
  rewrite (lookup_item_count (cont st) (item_of j) Hs), (Hcnt j Hj).
  assert (HN : Z.of_nat (length (members st)) < size_modulus).
  { rewrite Hlen. unfold N_MEMBERS, size_modulus. lia. }
  pose proof (count_true_le (members st)) as Hle.
  destruct (nth j (members st) false) eqn:Hm;
    cbn [Nat.eqb negb Bool.eqb].
  - (* the text is stored: it is removed *)
    unfold remove_item.
    pose proof (balanced_erase (cont st) (item_of j) Hb) as Hb'.
    pose proof (sorted_erase (cont st) (item_of j) Hb Hs) as Hs'.
    destruct (aerase_cases (cont st) (item_of j) Hb)
      as [[Hf _]|(y & A & B & nr & Hy & H1 & H2 & H)].
    { exfalso.
      assert (Hn : jsw_afind (cont st) (item_of j) = None)
        by (unfold jsw_afind; rewrite Hf; reflexivity).
      apply (afind_none_iff _ _ Hs) in Hn.
      rewrite (Hcnt j Hj), Hm in Hn. discriminate. }
    rewrite H in *. cbn [fst snd Z.eqb negb root] in *.
    unfold test_inv, elements in *. cbn [cont members root size] in *.
    pose proof (count_true_store j false (members st)) as Hct.
    rewrite Hm, Hlen in Hct. specialize (Hct Hj).
    pose proof (count_true_true j (members st) Hm).
    rewrite H1, length_app in Hel. cbn [length] in Hel.
    split; [exact Hb'|]. split; [exact Hs'|].
    split; [rewrite length_store; exact Hlen|].
    split; [rewrite H2, length_app; lia|].
    split; [rewrite Hsz, Z.mod_small; lia|].
    intros k Hk. specialize (Hcnt k Hk).
    rewrite H1, count_eq_app, count_eq_cons in Hcnt.
    rewrite (cmp_eqb_compat y (item_of j) (item_of k) Hy), item_eqb
      in Hcnt.
    rewrite H2, count_eq_app.
    destruct (Nat.eqb_spec j k) as [<-|Hjk].
    + rewrite nth_store_same by lia. rewrite Hm in Hcnt. lia.
    + rewrite nth_store_other by assumption. lia.
  - (* the text is not stored: it is inserted *)
    unfold insert_item. rewrite dup_f_spec.
    destruct malloc_ok; [destruct dup_ok|].
    + pose proof (balanced_insert true (cont st) (item_of j) Hb) as Hb'.
      pose proof (sorted_insert true (cont st) (item_of j) Hs) as Hs'.
      destruct (ainsert_ok (cont st) (item_of j)) as (nr & H & H1 & H2).
      rewrite H in *. cbn [fst snd Z.eqb negb root] in *.
      unfold test_inv, elements in *. cbn [cont members root size] in *.
      pose proof (count_true_store j true (members st)) as Hct.
      rewrite Hm, Hlen in Hct. specialize (Hct Hj).
      pose proof (count_true_false j (members st)) as Hlt.
      rewrite Hlen in Hlt. specialize (Hlt Hj Hm).
      rewrite H1, length_app in Hel.
      split; [exact Hb'|]. split; [exact Hs'|].
      split; [rewrite length_store; exact Hlen|].
      split; [rewrite H2, length_app; cbn [length]; lia|].
      split; [rewrite Hsz, Z.mod_small; lia|].
      intros k Hk. specialize (Hcnt k Hk).
      rewrite H1, count_eq_app in Hcnt.
      rewrite H2, count_eq_app, count_eq_cons.
      rewrite (cmp_eqb_compat (dup (item_of j)) (item_of j) (item_of k)
                 (dup_same _)), item_eqb.
      destruct (Nat.eqb_spec j k) as [<-|Hjk].
      * rewrite nth_store_same by lia. rewrite Hm in Hcnt. lia.
      * rewrite nth_store_other by assumption. lia.
    + split; reflexivity.
    + rewrite ainsert_fail. cbn. auto.
Qed.

(** A run of steps ends in one of three ways: it stops on a NULL stored as
    an item, which takes a node allocated and a [dup] that failed; it stops
    with the status 3, which takes a node that could not be allocated; or
    it goes through, and [members] tells what the tree holds. *)
Lemma steps_inv (rand : nat -> Z) (malloc dup_ok : nat -> bool) (n i : nat)
      (st : test_state) :
  test_inv item_of st ->
  match steps dup_f item_of rand malloc dup_ok n i st with
  | None =>
      exists k, (i <= k < i + n)%nat /\ malloc k = true /\ dup_ok k = false
  | Some (inl code) =>
      code = 3 /\ exists k, (i <= k < i + n)%nat /\ malloc k = false
  | Some (inr st') => test_inv item_of st'
  end.
Proof.
  revert i st; induction n as [|n IH]; intros i st Hinv; cbn [steps].
  - assumption.
  - pose proof (step_inv (rand i) (malloc i) (dup_ok i) st Hinv) as Hstep.
    destruct (step dup_f item_of (rand i) (malloc i) (dup_ok i) st)
      as [[code|st']|].
    + destruct Hstep as [-> Hm]. split; [reflexivity|].
      exists i. split; [lia | assumption].
    + unfold resize_container. cbn [negb]. rewrite andb_false_r.
      specialize (IH (S i) st' Hstep).
      destruct (steps dup_f item_of rand malloc dup_ok n (S i) st')
        as [[code|st'']|].
      * destruct IH as [-> (k & Hk & Hm)]. split; [reflexivity|].
        exists k. split; [lia | assumption].
      * assumption.
      * destruct IH as (k & Hk & Hm). exists k. split; [lia | assumption].
    + exists i. split; [lia | assumption].
Qed.

Lemma test_main_codes (new_ok : bool) (rand : nat -> Z)
      (malloc dup_ok : nat -> bool) :
  match test_main dup_f item_of new_ok rand malloc dup_ok with
  | None =>
      new_ok = true
      /\ exists k, (k < 2 * N_MEMBERS)%nat
                   /\ malloc k = true /\ dup_ok k = false
  | Some (code, _) =>
      (code = 0 \/ code = 1 \/ code = 3)
      /\ (code = 1 <-> new_ok = false)
      /\ (code = 3 ->
          exists k, (k < 2 * N_MEMBERS)%nat /\ malloc k = false)
  end.
Proof.
  unfold test_main. destruct new_ok.
  - pose proof (steps_inv rand malloc dup_ok (2 * N_MEMBERS) 0 _
                  test_inv_init) as H.
    destruct (steps dup_f item_of rand malloc dup_ok (2 * N_MEMBERS) 0
                (mk_test jsw_anew (repeat false N_MEMBERS)))
      as [[code|st]|].
    + destruct H as [-> (k & Hk & Hm)].
      repeat split; auto; try discriminate.
      intros _. exists k. split; [lia | assumption].
    + repeat split; auto; discriminate.
    + destruct H as (k & Hk & Hm). split; [reflexivity|].
      exists k. split; [lia | assumption].
  - repeat split; auto; discriminate.
Qed.

Lemma test_members (rand : nat -> Z) (malloc dup_ok : nat -> bool) (n : nat)
      (st : test_state) :
  steps dup_f item_of rand malloc dup_ok n 0
        (mk_test jsw_anew (repeat false N_MEMBERS))
  = Some (inr st) ->
  (forall j, (j < N_MEMBERS)%nat ->
     lookup_item (cont st) (item_of j) = nth j (members st) false)
  /\ jsw_asize (cont st) = Z.of_nat (count_true (members st))
  /\ length (elements (cont st)) = count_true (members st).
Proof.
  intros Hst.
  pose proof (steps_inv rand malloc dup_ok n 0 _ test_inv_init) as H.
  rewrite Hst in H. destruct H as (Hb & Hs & Hlen & Hel & Hsz & Hcnt).
  repeat split; auto.
  intros j Hj. rewrite (lookup_item_count _ _ Hs), (Hcnt j Hj).
  destruct (nth j (members st) false); reflexivity.
Qed.

End Harness.

End Order.

(** ** The properties of the tree *)

(** C2. Level balance is kept: in the tree that any sequence of insertions
    and erasures builds from the empty tree, every node other than the
    sentinel has its low child exactly one level below its own, and the
    high child of its high child is not at its own level. *)
Theorem level_invariant_preserved (ops : list (op E)) :
  Forall level_ok (nodes (root (run jsw_anew ops))).
Proof.
  apply Forall_nodes; [|apply balanced_run; exact I].
  intros lv x l r Hb. unfold level_ok.
  cbn [balanced level link] in *.
  destruct Hb as (H1 & H2 & H3 & H4 & _ & _). split; [assumption | lia].
Qed.

(** C3. An insertion that fails fails on the allocation and changes
    nothing: [jsw_ainsert] returns 0 only when [malloc] returned NULL, and
    the tree record it leaves (root and every node under it, size, the calls
    of [rel] and [free] made) is then the one it was given. *)
Theorem insert_failure_atomic (malloc_ok : bool) (tree : jsw_atree) (x : E) :
  snd (jsw_ainsert malloc_ok tree x) = 0 ->
  malloc_ok = false /\ fst (jsw_ainsert malloc_ok tree x) = tree.
Proof.
  destruct malloc_ok.
  - destruct (ainsert_ok tree x) as (nr & H & _). rewrite H. discriminate.
  - rewrite ainsert_fail. auto.
Qed.

(** C4. Ties go low and duplicates are kept: every node on the path of an
    insertion was left by its low link exactly when [cmp] of its item and
    the new one is not negative, and an insertion whose allocation succeeds
    returns 1 whatever the tree holds and adds one node with the clone of
    the item at the end of that path: the clone comes after the items that
    the path leaves on its low side (the nodes left by their high link,
    with their low subtrees) and before the items it leaves on its high
    side (the nodes left by their low link, with their high subtrees), every
    other item stays in place, and [size] is incremented. *)
Theorem insert_duplicate_routing (tree : jsw_atree) (x : E) :
  Forall (routed x) (insert_path (root tree) x [])
  /\ snd (jsw_ainsert true tree x) = 1
  /\ elements tree
     = path_before (insert_path (root tree) x [])
       ++ path_after (insert_path (root tree) x [])
  /\ elements (fst (jsw_ainsert true tree x))
     = path_before (insert_path (root tree) x [])
       ++ dup x :: path_after (insert_path (root tree) x [])
  /\ count_nodes (root (fst (jsw_ainsert true tree x)))
     = S (count_nodes (root tree))
  /\ size (fst (jsw_ainsert true tree x))
     = (size tree + 1) mod size_modulus.
Proof.
  split; [apply insert_path_routed; constructor|].
  destruct (ainsert_ok tree x) as (nr & H & H1 & H2). rewrite H.
  unfold elements in *. cbn [fst snd root size].
  split; [reflexivity|]. split; [exact H1|]. split; [exact H2|].
  split; [|reflexivity].
  rewrite <- !length_inorder, H1, H2, !length_app. simpl. lia.
Qed.

(** C5, as amended. The walk back of an erasure: on a tree built by
    insertions and erasures, the root [jsw_aerase] leaves is the one obtained
    by walking back up the recorded path and, at each ancestor one of whose
    children has fallen more than one level below it, demoting the ancestor
    to one more than the level of its lower child (its level less one),
    capping the level of its high child, applying skew to the ancestor, to its
    high child and to the high child of that one, then split to the ancestor
    and to its high child, and relinking the result into its parent or the
    root. *)
Theorem erase_rebalance_steps (ops : list (op E)) (x : E)
        (it : jsw_anode) (path : path_t) :
  erase_path (root (run jsw_anew ops)) x [] = Some (it, path) ->
  jsw_aerase (run jsw_anew ops) x
  = (decr_size
       (set_root (free_node (rel_data (run jsw_anew ops) it))
          (rebalance_by Z.min (fst (erase_unlink it path))
                        (snd (erase_unlink it path)))), 1).
Proof.
  intros Hp.
  assert (Hb : balanced (root (run jsw_anew ops)))
    by (apply balanced_run; exact I).
  unfold jsw_aerase. rewrite Hp.
  destruct (is_nil (root (run jsw_anew ops))) eqn:Hr.
  { destruct (root (run jsw_anew ops)); discriminate. }
  apply erase_path_some in Hp as (Hrel & Hok & lv & y & l & r & -> & Hy).
  simpl in Hrel. specialize (Hok (Forall_nil _)).
  rewrite <- Hrel in Hb.
  destruct (erase_unlink_spec (Node lv y l r) path eq_refl Hok Hb)
    as (c & H1 & H2 & H3).
  destruct (erase_unlink (Node lv y l r) path) as [wpath child].
  cbn [fst snd] in *.
  rewrite (rebalance_by_min wpath c child H1 H2 H3). reflexivity.
Qed.

(** C7. An erasure that finds nothing changes nothing: when no stored item
    compares equal to the probe (the empty tree included), [jsw_aerase]
    returns 0 and leaves the tree record as it was: links, levels, items,
    [size], and no call of [rel] or [free]. *)
Theorem erase_not_found_atomic (tree : jsw_atree) (x : E) :
  (forall y, In y (elements tree) -> cmp y x <> 0) ->
  jsw_aerase tree x = (tree, 0).
Proof.
  intros H. unfold jsw_aerase.
  destruct (is_nil (root tree)); [reflexivity|].
  pose proof (erase_path_find (root tree) x []) as Hf.
  rewrite (afind_loop_none (root tree) x H) in Hf.
  destruct (erase_path (root tree) x []) as [[it path]|] eqn:Hp;
    [|reflexivity].
  apply erase_path_some in Hp as (_ & _ & lv & y & l & r & -> & _).
  discriminate.
Qed.

(** C8. Destruction releases what is stored, once each: after any sequence
    of calls, [jsw_adelete] calls [rel] on the stored items, one call per
    node and in the order of the keys, which makes as many calls as there
    were successful insertions less successful erasures; with the nodes
    freed by the erasures, every node that was allocated has been freed (and
    the sentinel and the tree), and nothing stays linked. *)
Theorem destroy_release_count (ops : list (op E)) :
  released (jsw_adelete (run jsw_anew ops))
  = released (run jsw_anew ops) ++ elements (run jsw_anew ops)
  /\ (length (elements (run jsw_anew ops)) + tally is_erase jsw_anew ops
      = tally is_insert jsw_anew ops)%nat
  /\ freed (jsw_adelete (run jsw_anew ops))
     = (tally is_insert jsw_anew ops + 2)%nat
  /\ length (released (jsw_adelete (run jsw_anew ops)))
     = tally is_insert jsw_anew ops
  /\ root (jsw_adelete (run jsw_anew ops)) = Nil.
Proof.
  destruct (run_totals ops jsw_anew I) as (H1 & _ & H3 & H4).
  unfold jsw_adelete. rewrite adelete_loop_spec.
  cbn [released freed root]. fold (elements (run jsw_anew ops)).
  rewrite length_app, H3, H4, <- length_inorder.
  fold (elements (run jsw_anew ops)).
  cbn [elements jsw_anew root inorder length released freed] in *.
  repeat split; lia.
Qed.

(** C9. [size] counts the successes: after any sequence of calls on a new
    tree, [jsw_asize] is the number of insertions that returned success less
    the number of erasures that returned success, as long as that number
    fits [size_t]; it is the number of nodes of the tree. *)
Theorem size_consistency (ops : list (op E)) :
  Z.of_nat (tally is_insert jsw_anew ops)
  - Z.of_nat (tally is_erase jsw_anew ops) < size_modulus ->
  jsw_asize (run jsw_anew ops)
  = Z.of_nat (tally is_insert jsw_anew ops)
    - Z.of_nat (tally is_erase jsw_anew ops)
  /\ jsw_asize (run jsw_anew ops)
     = Z.of_nat (count_nodes (root (run jsw_anew ops))).
Proof.
  intros Hlt.
  destruct (run_totals ops jsw_anew I) as (H1 & H2 & _).
  assert (Hr : 0 <= size (run jsw_anew ops) < size_modulus).
  { apply size_range_run; [exact I|]. cbn. unfold size_modulus. lia. }
  unfold jsw_asize. rewrite <- length_inorder.
  fold (elements (run jsw_anew ops)).
  cbn [elements jsw_anew root inorder length size] in *.
  rewrite Z.mod_small in H2 by assumption.
  rewrite Z.mod_small in H2 by lia. lia.
Qed.

(** C10. Splicing the root out by its high link loses nothing: in a tree
    built by insertions and erasures a node without a high child is at level
    1 and has no low child either; so when [jsw_aerase] finds the item at the
    root and the root lacks a child, the new root [it->link[1]] holds every
    item of both subtrees of the old one. *)
Theorem root_splice_loses_nothing (ops : list (op E)) (x : E) :
  Forall leaf_if_no_high (nodes (root (run jsw_anew ops)))
  /\ forall it,
       erase_path (root (run jsw_anew ops)) x [] = Some (it, []) ->
       is_nil (link it false) || is_nil (link it true) = true ->
       root (fst (jsw_aerase (run jsw_anew ops) x)) = link it true
       /\ elements (fst (jsw_aerase (run jsw_anew ops) x))
          = inorder (link it false) ++ inorder (link it true).
Proof.
  assert (Hb : balanced (root (run jsw_anew ops)))
    by (apply balanced_run; exact I).
  split.
  - apply Forall_nodes; [|assumption].
    intros lv y l r Hn Hh. unfold leaf_if_no_high.
    destruct (balanced_single_child (Node lv y l r) Hn) as [Hl Hlv].
    { rewrite Hh. apply orb_true_r. }
    rewrite Hl. split; [apply Hlv|]; reflexivity.
  - intros it Hp Hc. unfold jsw_aerase, elements. rewrite Hp.
    destruct (is_nil (root (run jsw_anew ops))) eqn:Hr.
    { destruct (root (run jsw_anew ops)); discriminate. }
    apply erase_path_some in Hp as (Hrel & _ & _).
    simpl in Hrel. rewrite <- Hrel in Hb.
    destruct (balanced_single_child it Hb Hc) as [Hl _].
    unfold erase_unlink. rewrite Hc, Hl.
    cbn [fst snd root decr_size set_root erase_rebalance inorder app].
    split; reflexivity.
Qed.

(** ** More on erasure, height and cursors *)

Lemma afind_cmps_height (it : jsw_anode) (x : E) :
  (afind_cmps it x <= height it)%nat.
Proof.
  induction it as [|lv y l IHl r IHr]; cbn [afind_cmps height]; [lia|].
  destruct (cmp y x =? 0); [lia|].
  destruct (cmp y x <? 0); lia.
Qed.

Lemma balanced_height_log (t : jsw_anode) :
  balanced t ->
  Z.of_nat (height t) <= 2 * Z.log2 (Z.of_nat (count_nodes t) + 1).
Proof.
  intros Hb. pose proof (balanced_height t Hb) as [Hh _].
  pose proof (balanced_count t Hb) as Hn.
  pose proof (balanced_facts t Hb) as [H0 _].
  assert (level t <= Z.log2 (Z.of_nat (count_nodes t) + 1))
    by (apply Z.log2_le_pow2; lia).
  lia.
Qed.

(** X1. Logarithmic height: after any sequence of calls on a new tree, the
    longest chain of links from the root has at most 2 log2 (n + 1) nodes,
    [n] the number of nodes of the tree. *)
Theorem height_logarithmic (ops : list (op E)) :
  Z.of_nat (height (root (run jsw_anew ops)))
  <= 2 * Z.log2 (Z.of_nat (count_nodes (root (run jsw_anew ops))) + 1).
Proof. apply balanced_height_log, balanced_run. exact I. Qed.

(** X2. The cost of a lookup: [jsw_afind] calls [cmp] at most once per
    level of the tree, so at most 2 log2 (n + 1) times on a tree of [n]
    nodes built by the code. *)
Theorem find_cost (ops : list (op E)) (x : E) :
  (afind_cmps (root (run jsw_anew ops)) x
   <= height (root (run jsw_anew ops)))%nat
  /\ Z.of_nat (afind_cmps (root (run jsw_anew ops)) x)
     <= 2 * Z.log2 (Z.of_nat (count_nodes (root (run jsw_anew ops))) + 1).
Proof.
  pose proof (afind_cmps_height (root (run jsw_anew ops)) x).
  pose proof (balanced_height_log (root (run jsw_anew ops))
                (balanced_run ops jsw_anew I)).
  split; lia.
Qed.

Lemma aerase_released (tree : jsw_atree) (x : E) :
  snd (jsw_aerase tree x) = 1 ->
  released (fst (jsw_aerase tree x))
  = released tree ++ item (afind_loop (root tree) x)
  /\ is_nil (afind_loop (root tree) x) = false.
Proof.
  unfold jsw_aerase.
  destruct (is_nil (root tree)); [discriminate|].
  pose proof (erase_path_find (root tree) x []) as Hf.
  destruct (erase_path (root tree) x []) as [[it path]|] eqn:Hp;
    [|discriminate].
  apply erase_path_some in Hp as (_ & _ & lv & y & l & r & -> & _).
  rewrite Hf. destruct (erase_unlink (Node lv y l r) path) as [wpath child].
  intros _. split; reflexivity.
Qed.

(** X3. Erasure and lookup agree, on any tree: [jsw_aerase] returns 1
    exactly when [jsw_afind] finds an item for the same probe; when the
    lookup returns NULL the erasure returns 0 and leaves the tree record as
    it was, and otherwise the item passed to [rel] is the item the lookup
    returns. *)
Theorem erase_agrees_with_find (tree : jsw_atree) (x : E) :
  (jsw_afind tree x = None -> jsw_aerase tree x = (tree, 0))
  /\ (forall y, jsw_afind tree x = Some y ->
        snd (jsw_aerase tree x) = 1
        /\ released (fst (jsw_aerase tree x)) = released tree ++ [y]
        /\ freed (fst (jsw_aerase tree x)) = S (freed tree)).
Proof.
  unfold jsw_afind.
  pose proof (erase_path_find (root tree) x []) as Hf.
  split.
  - intros Hn. unfold jsw_aerase.
    destruct (is_nil (root tree)); [reflexivity|].
    destruct (erase_path (root tree) x []) as [[it path]|] eqn:Hp;
      [|reflexivity].
    apply erase_path_some in Hp as (_ & _ & lv & y & l & r & -> & _).
    rewrite Hf in Hn. discriminate.
  - intros y Hy.
    assert (Hs : snd (jsw_aerase tree x) = 1
                 /\ freed (fst (jsw_aerase tree x)) = S (freed tree)).
    { unfold jsw_aerase.
      destruct (is_nil (root tree)) eqn:Hr.
      { destruct (root tree); discriminate. }
      destruct (erase_path (root tree) x []) as [[it path]|] eqn:Hp.
      - destruct (erase_unlink it path). split; reflexivity.
      - rewrite Hf in Hy. discriminate. }
    destruct Hs as [Hs Hfr]. split; [assumption|]. split; [|assumption].
    destruct (aerase_released tree x Hs) as [Hrel _].
    rewrite Hrel. unfold item. rewrite Hy. reflexivity.
Qed.

(** X4. What an erasure removes: on a tree with balanced levels, a
    successful [jsw_aerase] takes one item out of the sequence of the stored
    items, an item that compares equal to the probe, leaves every other
    item in its place, passes that item and no other to [rel], frees one
    node and decrements [size]. *)
Theorem erase_removes_one (tree : jsw_atree) (x : E) :
  balanced (root tree) ->
  snd (jsw_aerase tree x) = 1 ->
  exists y A B,
    cmp y x = 0
    /\ jsw_afind tree x = Some y
    /\ elements tree = A ++ y :: B
    /\ elements (fst (jsw_aerase tree x)) = A ++ B
    /\ released (fst (jsw_aerase tree x)) = released tree ++ [y]
    /\ freed (fst (jsw_aerase tree x)) = S (freed tree)
    /\ size (fst (jsw_aerase tree x)) = (size tree - 1) mod size_modulus.
Proof.
  intros Hb Hs.
  destruct (aerase_released tree x Hs) as [Hrel Hnil].
  destruct (aerase_cases tree x Hb)
    as [[_ H]|(y & A & B & nr & H1 & H2 & H3 & H4)].
  - rewrite H in Hs. discriminate.
  - exists y, A, B. rewrite H4 in *. unfold elements, jsw_afind in *.
    cbn [fst root released freed size] in *.
    apply app_inv_head in Hrel.
    repeat split; auto.
    destruct (afind_loop (root tree) x); [discriminate|].
    cbn in Hrel |- *. congruence.
Qed.

(** *** Cursors *)

Lemma descend_eq (t : jsw_anode) (dd : bool) (path : path_t) :
  descend t dd path =
  if is_nil t then mk_atrav Nil path
  else if is_nil (link t dd) then mk_atrav t path
       else descend (link t dd) dd ((t, dd) :: path).
Proof. destruct t as [|lv x l r]; [reflexivity|]. destruct dd; reflexivity. Qed.

(** A descent pushes entries of its own direction only and stops on a node
    without a link in that direction. *)
Lemma descend_shape (t : jsw_anode) (dd : bool) (path : path_t) :
  is_nil t = false -> linked t path ->
  exists hp,
    trav_path (descend t dd path) = hp ++ path
    /\ Forall (fun e => snd e = dd) hp
    /\ is_nil (trav_it (descend t dd path)) = false
    /\ is_nil (link (trav_it (descend t dd path)) dd) = true
    /\ linked (trav_it (descend t dd path)) (hp ++ path).
Proof.
  revert path; induction t as [|lv x l IHl r IHr]; intros path Ht Hl.
  - discriminate.
  - rewrite descend_eq. cbn [is_nil].
    destruct (is_nil (link (Node lv x l r) dd)) eqn:Hn.
    + exists []. cbn [trav_it trav_path app]. repeat split; auto.
    + assert (IH : forall path',
                 linked (link (Node lv x l r) dd) path' ->
                 exists hp,
                   trav_path (descend (link (Node lv x l r) dd) dd path')
                   = hp ++ path'
                   /\ Forall (fun e => snd e = dd) hp
                   /\ is_nil (trav_it (descend (link (Node lv x l r) dd) dd
                                         path')) = false
                   /\ is_nil (link (trav_it (descend
                                  (link (Node lv x l r) dd) dd path')) dd)
                      = true
                   /\ linked (trav_it (descend (link (Node lv x l r) dd) dd
                                         path')) (hp ++ path')).
      { intros path' Hl'. destruct dd; cbn [link] in *;
          [apply IHr | apply IHl]; assumption. }
      destruct (IH ((Node lv x l r, dd) :: path)) as (hp & H1 & H2 & H3 & H4 & H5).
      { cbn [linked]. auto. }
      exists (hp ++ [(Node lv x l r, dd)]).
      rewrite <- app_assoc. cbn [app]. repeat split; auto.
      apply Forall_app. split; [assumption|]. repeat constructor.
Qed.

Lemma unwind_app (hp path : path_t) (dir : bool) :
  Forall (fun e => snd e = dir) hp ->
  unwind (hp ++ path) dir = unwind path dir.
Proof.
  induction hp as [|[p d] hp IH]; intros H; [reflexivity|].
  apply Forall_cons_iff in H as [Hd Hhp]. cbn [snd] in Hd. subst d.
  cbn [app unwind]. rewrite Bool.eqb_reflx. apply IH. assumption.
Qed.

Lemma linked_unwind (it : jsw_anode) (path : path_t) (dir : bool) :
  linked it path ->
  cursor_ok (unwind path dir)
  /\ exists q,
       Forall (fun e => snd e = dir) q
       /\ (is_nil (trav_it (unwind path dir)) = false ->
           path = q ++ (trav_it (unwind path dir), negb dir)
                       :: trav_path (unwind path dir)).
Proof.
  revert it; induction path as [|[p d] up IH]; intros it Hl.
  - split; [split; [intros _; reflexivity | exact I]|].
    exists []. split; [constructor | discriminate].
  - destruct Hl as (Hp & Hlk & Hup). cbn [unwind].
    destruct (Bool.eqb d dir) eqn:Hd.
    + apply Bool.eqb_prop in Hd. subst d.
      destruct (IH p Hup) as (Hok & q & Hq & Heq).
      split; [assumption|]. exists ((p, dir) :: q).
      split; [constructor; [reflexivity | assumption]|].
      intros Hn. cbn [app]. f_equal. apply Heq. assumption.
    + split; [split; [unfold trav_ok; cbn; congruence | assumption]|].
      exists []. split; [constructor|]. intros _. cbn [app trav_it trav_path].
      destruct d, dir; try discriminate; reflexivity.
Qed.

(** Going down along a chain of links of one direction rebuilds the chain. *)
Lemma descend_chain (dir : bool) (q : path_t) (it : jsw_anode) :
  forall top base,
    Forall (fun e => snd e = dir) q ->
    linked it (q ++ [(top, negb dir)]) ->
    is_nil it = false ->
    descend (link top (negb dir)) dir base
    = descend it dir (q ++ base).
Proof.
  revert it; induction q as [|[p d] q IH]; intros it top base Hq Hl Hit.
  - cbn [app linked] in *. destruct Hl as (_ & -> & _). reflexivity.
  - apply Forall_cons_iff in Hq as [Hd Hq']. cbn [snd] in Hd. subst d.
    cbn [app linked] in Hl. destruct Hl as (Hp & Hlk & Hl).
    rewrite (IH p top base Hq' Hl Hp).
    rewrite (descend_eq p), Hp, Hlk, Hit. reflexivity.
Qed.

Lemma cursor_ok_start (tree : jsw_atree) (d : bool) :
  cursor_ok (fst (start tree d)).
Proof.
  unfold start. cbn [fst].
  destruct (is_nil (root tree)) eqn:Hr.
  - destruct (root tree); [|discriminate].
    split; [intros _; reflexivity | exact I].
  - destruct (descend_shape (root tree) d [] Hr I) as (hp & H1 & _ & H3 & _ & H5).
    split; [unfold trav_ok; congruence|]. rewrite H1. assumption.
Qed.

Lemma cursor_ok_move (trav : jsw_atrav) (dir : bool) :
  cursor_ok trav -> cursor_ok (fst (move trav dir)).
Proof.
  intros [Hok Hl]. unfold move. cbn [fst].
  destruct (is_nil (link (trav_it trav) dir)) eqn:Hn; cbn [negb].
  - apply (linked_unwind (trav_it trav)). assumption.
  - assert (Hit : is_nil (trav_it trav) = false)
      by (destruct (trav_it trav); [discriminate | reflexivity]).
    destruct (descend_shape (link (trav_it trav) dir) (negb dir)
                ((trav_it trav, dir) :: trav_path trav) Hn)
      as (hp & H1 & _ & H3 & _ & H5).
    { cbn [linked]. auto. }
    split; [unfold trav_ok; congruence|]. rewrite H1. assumption.
Qed.

Lemma cursor_ok_moves (tree : jsw_atree) (d : bool) (dirs : list bool) :
  cursor_ok (moves (fst (start tree d)) dirs).
Proof.
  assert (G : forall trav, cursor_ok trav -> cursor_ok (moves trav dirs)).
  { induction dirs as [|d' dirs IH]; intros trav H; [assumption|].
    cbn [moves]. apply IH, cursor_ok_move. assumption. }
  apply G, cursor_ok_start.
Qed.

Lemma move_back (trav : jsw_atrav) (dir : bool) :
  cursor_ok trav ->
  is_nil (trav_it (fst (move trav dir))) = false ->
  fst (move (fst (move trav dir)) (negb dir)) = trav.
Proof.
  intros [Hok Hl] Hres.
  destruct trav as [it path]. unfold trav_ok in Hok.
  cbn [trav_it trav_path] in *.
  assert (Hit : is_nil it = false).
  { destruct it; [|reflexivity].
    exfalso. unfold move in Hres. cbn [fst trav_it trav_path] in Hres.
    rewrite (Hok eq_refl) in Hres. discriminate. }
  assert (Hm : fst (move (mk_atrav it path) dir)
               = if negb (is_nil (link it dir))
                 then descend (link it dir) (negb dir) ((it, dir) :: path)
                 else unwind path dir) by reflexivity.
  rewrite Hm in *. clear Hm.
  destruct (is_nil (link it dir)) eqn:Hn; cbn [negb] in *.
  - (* up to the ancestor left towards the other side, and back down *)
    destruct (linked_unwind it path dir Hl) as (_ & q & Hq & Heq).
    specialize (Heq Hres).
    destruct (unwind path dir) as [p up] eqn:Hu.
    cbn [trav_it trav_path] in *.
    unfold move. cbn [fst trav_it trav_path].
    assert (Hchain : linked it (q ++ [(p, negb dir)])).
    { clear - Hl Heq. subst path. revert it Hl.
      induction q as [|[p' d'] q IH]; intros it Hl.
      - cbn [app linked] in *. tauto.
      - cbn [app linked] in *. destruct Hl as (H1 & H2 & H3).
        repeat split; auto. }
    assert (Hlp : is_nil (link p (negb dir)) = false).
    { clear - Hchain Hit Hq. revert it Hchain Hit.
      induction q as [|[p' d'] q IH]; intros it Hc Hit.
      - cbn [app linked] in Hc. destruct Hc as (_ & -> & _). assumption.
      - apply Forall_cons_iff in Hq as [_ Hq']. cbn [app linked] in Hc.
        destruct Hc as (H1 & _ & H3). apply (IH Hq' p'); assumption. }
    rewrite Hlp. cbn [negb]. rewrite Bool.negb_involutive.
    rewrite (descend_chain dir q it p ((p, negb dir) :: up) Hq Hchain Hit).
    rewrite descend_eq, Hit, Hn, Heq. reflexivity.
  - (* down to the next node, and back up to the node left *)
    destruct (descend_shape (link it dir) (negb dir) ((it, dir) :: path) Hn)
      as (hp & H1 & H2 & H3 & H4 & _).
    { cbn [linked]. auto. }
    unfold move. cbn [fst].
    destruct (descend (link it dir) (negb dir) ((it, dir) :: path))
      as [s sp]. cbn [trav_it trav_path] in *.
    rewrite H4. cbn [negb]. subst sp.
    rewrite (unwind_app hp _ (negb dir) H2). cbn [unwind].
    replace (Bool.eqb dir (negb dir)) with false by (destruct dir; reflexivity).
    reflexivity.
Qed.

(** X5. A step back undoes a step: for a cursor started on a tree and moved
    any number of times, when [jsw_atnext] (or [jsw_atprev]) returns an item
    and not NULL, the opposite call that follows returns the item the
    cursor was on and leaves the cursor as it was. *)
Theorem cursor_step_back (tree : jsw_atree) (d : bool) (dirs : list bool)
        (dir : bool) :
  snd (move (moves (fst (start tree d)) dirs) dir) <> None ->
  move (fst (move (moves (fst (start tree d)) dirs) dir)) (negb dir)
  = (moves (fst (start tree d)) dirs,
     data (trav_it (moves (fst (start tree d)) dirs))).
Proof.
  intros Hres.
  pose proof (cursor_ok_moves tree d dirs) as Hok.
  set (trav := moves (fst (start tree d)) dirs) in *.
  assert (Hnil : is_nil (trav_it (fst (move trav dir))) = false).
  { unfold move in *. cbn [fst snd] in *.
    destruct (trav_it _); [contradiction | reflexivity]. }
  pose proof (move_back trav dir Hok Hnil) as Hb.
  unfold move at 1. unfold move at 1 in Hb. cbn [fst] in Hb.
  rewrite Hb. reflexivity.
Qed.

(** X6. The end is final: once a call on a cursor has returned NULL, every
    later [jsw_atnext] and [jsw_atprev] returns NULL and leaves the cursor
    as it is; there is no stepping back from the end. *)
Theorem cursor_end_is_final (tree : jsw_atree) (d : bool) (dirs : list bool)
        (dir : bool) :
  data (trav_it (moves (fst (start tree d)) dirs)) = None ->
  move (moves (fst (start tree d)) dirs) dir
  = (moves (fst (start tree d)) dirs, None).
Proof.
  intros Hres.
  destruct (cursor_ok_moves tree d dirs) as [Hok _].
  destruct (moves (fst (start tree d)) dirs) as [it path].
  cbn [trav_it trav_path] in *. unfold trav_ok in Hok. cbn in Hok.
  destruct it; [|discriminate]. rewrite (Hok eq_refl). reflexivity.
Qed.

(** X7. Where a traversal starts: on any tree [jsw_atfirst] returns the
    first of the stored items in the order of the keys and [jsw_atlast] the
    last of them, and NULL when the tree is empty. *)
Theorem cursor_first_last (tree : jsw_atree) :
  snd (jsw_atfirst tree) = hd_error (elements tree)
  /\ snd (jsw_atlast tree) = hd_error (rev (elements tree)).
Proof.
  assert (G : forall dir,
             snd (start tree (negb dir)) = hd_error (walk dir (root tree))).
  { intros dir. destruct (start_spec tree dir) as ([Hok _] & Hrem & Hd).
    rewrite Hd, <- Hrem. unfold remaining, trav_ok, item in *.
    destruct (trav_it (fst (start tree (negb dir)))) as [|lv x l r].
    - rewrite (Hok eq_refl). reflexivity.
    - reflexivity. }
  unfold jsw_atfirst, jsw_atlast, elements. split.
  - rewrite <- walk_true. apply (G true).
  - rewrite <- walk_false. apply (G false).
Qed.


(** *** The place of a cursor *)

Lemma linked_path_ok (it : jsw_anode) (path : path_t) :
  linked it path -> path_ok path.
Proof.
  revert it; induction path as [|[p d] up IH]; intros it Hl; [constructor|].
  destruct Hl as (Hp & _ & Hup). constructor; [exact Hp | apply (IH p Hup)].
Qed.

Lemma cursor_ok_inv (trav : jsw_atrav) : cursor_ok trav -> trav_inv trav.
Proof.
  intros [Hok Hl]. split; [assumption|].
  apply (linked_path_ok (trav_it trav)). assumption.
Qed.

Lemma pending_same (dir : bool) (hp path : path_t) :
  Forall (fun e => snd e = dir) hp ->
  pending dir (hp ++ path) = pending dir path.
Proof.
  induction hp as [|[p d] hp IH]; intros H; [reflexivity|].
  apply Forall_cons_iff in H as [Hd Hhp]. cbn [snd] in Hd. subst d.
  cbn [app pending]. rewrite Bool.eqb_reflx. apply IH. assumption.
Qed.

Lemma rev_item (t : jsw_anode) : rev (item t) = item t.
Proof. unfold item. destruct (data t); reflexivity. Qed.

Lemma ahead_end (dir : bool) (trav : jsw_atrav) :
  trav_ok trav -> is_nil (trav_it trav) = true -> ahead dir trav = [].
Proof.
  intros Hok Hn. unfold ahead. rewrite (Hok Hn).
  destruct (trav_it trav); [reflexivity | discriminate].
Qed.

Lemma move_end (trav : jsw_atrav) (dir : bool) :
  trav_ok trav -> is_nil (trav_it trav) = true ->
  is_nil (trav_it (fst (move trav dir))) = true.
Proof.
  intros Hok Hn. unfold move. cbn [fst]. rewrite (Hok Hn).
  destruct (trav_it trav); [reflexivity | discriminate].
Qed.

Lemma move_ahead (trav : jsw_atrav) (dir : bool) :
  cursor_ok trav -> is_nil (trav_it trav) = false ->
  ahead dir trav
  = item (trav_it (fst (move trav dir))) ++ ahead dir (fst (move trav dir))
  /\ (is_nil (trav_it (fst (move trav dir))) = false ->
      ahead (negb dir) (fst (move trav dir))
      = item (trav_it trav) ++ ahead (negb dir) trav).
Proof.
  intros Hok Hit. split.
  - destruct (move_spec trav dir (cursor_ok_inv trav Hok) Hit)
      as (_ & Hrem & _).
    unfold remaining in Hrem. apply app_inv_head in Hrem. exact Hrem.
  - intros Hn.
    pose proof (cursor_ok_move trav dir Hok) as Hok'.
    destruct (move_spec (fst (move trav dir)) (negb dir)
                (cursor_ok_inv _ Hok') Hn) as (_ & Hrem & _).
    rewrite (move_back trav dir Hok Hn) in Hrem.
    unfold remaining in Hrem. apply app_inv_head in Hrem. exact Hrem.
Qed.

Lemma placed_start (tree : jsw_atree) (d : bool) :
  placed tree (fst (start tree d)).
Proof.
  intros Hn.
  assert (Hr : is_nil (root tree) = false).
  { unfold start in Hn. cbn [fst] in Hn.
    destruct (root tree); [discriminate Hn | reflexivity]. }
  assert (Ha : ahead d (fst (start tree d)) = []).
  { unfold start. cbn [fst].
    destruct (descend_shape (root tree) d [] Hr I)
      as (hp & H1 & H2 & _ & H4 & _).
    unfold ahead. rewrite H1, (pending_same d hp [] H2).
    destruct (link (trav_it (descend (root tree) d [])) d);
      [reflexivity | discriminate]. }
  destruct (start_spec tree (negb d)) as (_ & Hrem & _).
  rewrite Bool.negb_involutive in Hrem. unfold remaining in Hrem.
  unfold elements.
  destruct d; cbn [negb] in Hrem; rewrite Ha.
  - (* at the last item *)
    rewrite (walk_false (root tree)) in Hrem. rewrite app_nil_r.
    rewrite <- (rev_involutive (inorder (root tree))), <- Hrem.
    rewrite rev_app_distr, rev_item. reflexivity.
  - (* at the first item *)
    rewrite (walk_true (root tree)) in Hrem. cbn [rev app]. symmetry.
    exact Hrem.
Qed.

Lemma placed_move (tree : jsw_atree) (trav : jsw_atrav) (dir : bool) :
  cursor_ok trav -> placed tree trav -> placed tree (fst (move trav dir)).
Proof.
  intros Hok Hp Hn.
  assert (Hit : is_nil (trav_it trav) = false).
  { destruct (is_nil (trav_it trav)) eqn:Hit; [|reflexivity].
    destruct Hok as [Hok _].
    rewrite (move_end trav dir Hok Hit) in Hn. discriminate. }
  destruct (move_ahead trav dir Hok Hit) as [H1 H2].
  specialize (H2 Hn). rewrite (Hp Hit).
  destruct dir; cbn [negb] in H2; rewrite H1, H2.
  - rewrite rev_app_distr, rev_item, <- app_assoc. reflexivity.
  - rewrite rev_app_distr, rev_item, <- app_assoc. reflexivity.
Qed.

Lemma placed_moves (tree : jsw_atree) (d : bool) (dirs : list bool) :
  placed tree (moves (fst (start tree d)) dirs).
Proof.
  assert (G : forall trav, cursor_ok trav -> placed tree trav ->
                           placed tree (moves trav dirs)).
  { induction dirs as [|d' dirs IH]; intros trav Hok Hp; [assumption|].
    cbn [moves]. apply IH; [apply cursor_ok_move | apply placed_move];
      assumption. }
  apply G; [apply cursor_ok_start | apply placed_start].
Qed.

Lemma move_returns (trav : jsw_atrav) (dir : bool) :
  cursor_ok trav -> is_nil (trav_it trav) = false ->
  snd (move trav dir) = hd_error (ahead dir trav).
Proof.
  intros Hok Hit.
  destruct (move_ahead trav dir Hok Hit) as [H1 _]. rewrite H1.
  destruct (cursor_ok_move trav dir Hok) as [Hok' _].
  pose proof (ahead_end dir (fst (move trav dir)) Hok') as He.
  change (snd (move trav dir)) with (data (trav_it (fst (move trav dir)))).
  unfold item.
  destruct (trav_it (fst (move trav dir))) as [|lv y l r];
    cbn [data app hd_error]; [rewrite He; reflexivity | reflexivity].
Qed.

(** X15. The neighbours of a cursor: a cursor started on a tree and moved
    by any calls of [jsw_atnext] and [jsw_atprev], in any order, that is on
    an item is at a place of the stored items in the order of the keys;
    [jsw_atnext] returns the item that follows that place and [jsw_atprev]
    the one before it, NULL when there is none. *)
Theorem cursor_neighbours (tree : jsw_atree) (d : bool) (dirs : list bool)
        (x : E) :
  data (trav_it (moves (fst (start tree d)) dirs)) = Some x ->
  exists A B,
    elements tree = A ++ x :: B
    /\ snd (jsw_atnext (moves (fst (start tree d)) dirs)) = hd_error B
    /\ snd (jsw_atprev (moves (fst (start tree d)) dirs))
       = hd_error (rev A).
Proof.
  intros Hx.
  pose proof (cursor_ok_moves tree d dirs) as Hok.
  pose proof (placed_moves tree d dirs) as Hp.
  set (trav := moves (fst (start tree d)) dirs) in *.
  assert (Hit : is_nil (trav_it trav) = false)
    by (destruct (trav_it trav); [discriminate Hx | reflexivity]).
  exists (rev (ahead false trav)), (ahead true trav).
  split; [|split].
  - rewrite (Hp Hit). unfold item. rewrite Hx. reflexivity.
  - apply move_returns; assumption.
  - rewrite rev_involutive. apply move_returns; assumption.
Qed.
End ATree.

(** ** The properties at work: integers as items *)

Lemma zcmp_antisym (x y : Z) : zcmp x y < 0 <-> 0 < zcmp y x.
Proof.
  unfold zcmp. destruct (Z.compare_spec x y), (Z.compare_spec y x); lia.
Qed.

Lemma zcmp_trans (x y z : Z) : zcmp x y <= 0 -> zcmp y z <= 0 -> zcmp x z <= 0.
Proof.
  unfold zcmp.
  destruct (Z.compare_spec x y), (Z.compare_spec y z), (Z.compare_spec x z);
    lia.
Qed.

Lemma zdup_same (x : Z) : zcmp (zdup x) x = 0.
Proof. unfold zcmp, zdup. rewrite Z.compare_refl. reflexivity. Qed.

(** "5", "3", "8", "1", "4" inserted in that order, then "3" erased. *)
Lemma find_membership_witness :
  (forall x y, zcmp x y < 0 <-> 0 < zcmp y x)
  /\ (forall x y z, zcmp x y <= 0 -> zcmp y z <= 0 -> zcmp x z <= 0)
  /\ (forall x, zcmp (zdup x) x = 0)
  /\ (exists y,
        jsw_afind zcmp (run zcmp zdup (jsw_anew Z) scenario) 4 = Some y
        /\ In y (elements (run zcmp zdup (jsw_anew Z) scenario))
        /\ zcmp y 4 = 0)
  /\ jsw_afind zcmp (run zcmp zdup (jsw_anew Z) scenario) 3 = None.
Proof.
  split; [exact zcmp_antisym|]. split; [exact zcmp_trans|].
  split; [exact zdup_same|]. split.
  - apply (find_membership Z zcmp zdup zcmp_antisym zcmp_trans zdup_same
             scenario 4).
    vm_compute. lia.
  - apply (find_membership Z zcmp zdup zcmp_antisym zcmp_trans zdup_same
             scenario 3).
    vm_compute. lia.
Defined.

Lemma insert_failure_atomic_witness :
  snd (jsw_ainsert zcmp zdup false (run zcmp zdup (jsw_anew Z) scenario) 7)
  = 0
  /\ fst (jsw_ainsert zcmp zdup false (run zcmp zdup (jsw_anew Z) scenario) 7)
     = run zcmp zdup (jsw_anew Z) scenario.
Proof.
  split; [reflexivity|].
  apply (insert_failure_atomic Z zcmp zdup false
           (run zcmp zdup (jsw_anew Z) scenario) 7).
  reflexivity.
Defined.

Lemma erase_rebalance_steps_witness :
  erase_path zcmp (root (run zcmp zdup (jsw_anew Z) three)) 1 []
  = Some (Node 1 1 (Nil Z) (Nil Z),
          [(Node 2 2 (Node 1 1 (Nil Z) (Nil Z)) (Node 1 3 (Nil Z) (Nil Z)),
            false)])
  /\ root (fst (jsw_aerase zcmp (run zcmp zdup (jsw_anew Z) three) 1))
     = rebalance_by Z.min
         [(Node 2 2 (Node 1 1 (Nil Z) (Nil Z)) (Node 1 3 (Nil Z) (Nil Z)),
           false)]
         (Nil Z).
Proof.
  split; [reflexivity|].
  rewrite (erase_rebalance_steps Z zcmp zdup three 1
             (Node 1 1 (Nil Z) (Nil Z))
             [(Node 2 2 (Node 1 1 (Nil Z) (Nil Z)) (Node 1 3 (Nil Z) (Nil Z)),
               false)]
             eq_refl).
  reflexivity.
Defined.

(** C5, as the description has it: the ancestor demoted to one more than
    the level of its *larger* child. Erasing 1 from the tree of 1, 2, 3
    leaves the root 2 with no low child and the high child 3 at level 1; the
    code takes the root from level 2 to level 1, one more than the larger
    child's level is 2. *)
Lemma erase_demotes_below_larger_child :
  ~ (forall (ops : list (op Z)) (x : Z) (it : jsw_anode Z) (path : path_t Z),
       erase_path zcmp (root (run zcmp zdup (jsw_anew Z) ops)) x []
       = Some (it, path) ->
       jsw_aerase zcmp (run zcmp zdup (jsw_anew Z) ops) x
       = (decr_size
            (set_root
               (free_node (rel_data (run zcmp zdup (jsw_anew Z) ops) it))
               (rebalance_by Z.max (fst (erase_unlink it path))
                             (snd (erase_unlink it path)))), 1)).
Proof.
  intros H.
  specialize (H three 1 (Node 1 1 (Nil Z) (Nil Z))
                [(Node 2 2 (Node 1 1 (Nil Z) (Nil Z))
                    (Node 1 3 (Nil Z) (Nil Z)), false)] eq_refl).
  vm_compute in H. discriminate H.
Qed.


Lemma erase_not_found_atomic_witness :
  (forall y, In y (elements (run zcmp zdup (jsw_anew Z) scenario)) ->
             zcmp y 3 <> 0)
  /\ jsw_aerase zcmp (run zcmp zdup (jsw_anew Z) scenario) 3
     = (run zcmp zdup (jsw_anew Z) scenario, 0).
Proof.
  assert (H : forall y,
             In y (elements (run zcmp zdup (jsw_anew Z) scenario)) ->
             zcmp y 3 <> 0).
  { intros y Hin. vm_compute in Hin.
    destruct Hin as [<-|[<-|[<-|[<-|[]]]]]; vm_compute; discriminate. }
  split; [exact H|].
  apply (erase_not_found_atomic Z zcmp
           (run zcmp zdup (jsw_anew Z) scenario) 3 H).
Defined.

Lemma size_consistency_witness :
  Z.of_nat (tally zcmp zdup (is_insert (E:=Z)) (jsw_anew Z) scenario)
  - Z.of_nat (tally zcmp zdup (is_erase (E:=Z)) (jsw_anew Z) scenario)
  < size_modulus
  /\ jsw_asize (run zcmp zdup (jsw_anew Z) scenario) = 4.
Proof.
  assert (H : Z.of_nat (tally zcmp zdup (is_insert (E:=Z)) (jsw_anew Z)
                          scenario)
              - Z.of_nat (tally zcmp zdup (is_erase (E:=Z)) (jsw_anew Z)
                            scenario)
              < size_modulus) by (vm_compute; reflexivity).
  split; [exact H|].
  destruct (size_consistency Z zcmp zdup scenario H) as [H1 _].
  rewrite H1. reflexivity.
Defined.

(** 1 and 2 inserted: 1 is the root, without a low child, and 2 hangs on
    its high link.  1 erased: the root is spliced out and 2 is kept. *)
Lemma root_splice_loses_nothing_witness :
  erase_path zcmp
    (root (run zcmp zdup (jsw_anew Z) [Insert true 1; Insert true 2])) 1 []
  = Some (Node 1 1 (Nil Z) (Node 1 2 (Nil Z) (Nil Z)), [])
  /\ root (fst (jsw_aerase zcmp
                  (run zcmp zdup (jsw_anew Z) [Insert true 1; Insert true 2])
                  1))
     = Node 1 2 (Nil Z) (Nil Z)
  /\ elements
       (fst (jsw_aerase zcmp
               (run zcmp zdup (jsw_anew Z) [Insert true 1; Insert true 2])
               1))
     = [2].
Proof.
  split; [reflexivity|].
  destruct (root_splice_loses_nothing Z zcmp zdup
              [Insert true 1; Insert true 2] 1) as [_ H].
  destruct (H (Node 1 1 (Nil Z) (Node 1 2 (Nil Z) (Nil Z))) eq_refl eq_refl)
    as [H1 H2].
  rewrite H1, H2. split; reflexivity.
Defined.

(** ** Strings as items: the test of the tree *)

Lemma strcmp_opp (s1 s2 : string) : strcmp s2 s1 = - strcmp s1 s2.
Proof.
  revert s2; induction s1 as [|c1 r1 IH]; intros [|c2 r2]; cbn [strcmp];
    try lia.
  rewrite (N.eqb_sym (N_of_ascii c2)).
  destruct (N.eqb_spec (N_of_ascii c1) (N_of_ascii c2)) as [He|Hn];
    [|lia].
  rewrite <- He. destruct (N_of_ascii c1 =? 0)%N; [reflexivity | apply IH].
Qed.

Lemma strcmp_antisym (x y : string) : strcmp x y < 0 <-> 0 < strcmp y x.
Proof. rewrite (strcmp_opp x y). lia. Qed.

Lemma strcmp_trans (x y z : string) :
  strcmp x y <= 0 -> strcmp y z <= 0 -> strcmp x z <= 0.
Proof.
  revert y z; induction x as [|a x IH]; intros [|b y] [|c z];
    cbn [strcmp];
    repeat match goal with
           | |- context [(?p =? ?q)%N] => destruct (N.eqb_spec p q)
           end;
    try lia; apply IH.
Qed.

Lemma strdup_same (s : string) : strcmp (strdup_copy s) s = 0.
Proof.
  unfold strdup_copy. induction s as [|c s IH]; cbn [strcmp]; [reflexivity|].
  rewrite N.eqb_refl. destruct (N_of_ascii c =? 0)%N; auto.
Qed.

Lemma string_of_uint_inj (d1 d2 : Decimal.uint) :
  strcmp (NilEmpty.string_of_uint d1) (NilEmpty.string_of_uint d2) = 0 ->
  d1 = d2.
Proof.
  revert d2; induction d1 as [|d1 IH|d1 IH|d1 IH|d1 IH|d1 IH|d1 IH|d1 IH
                             |d1 IH|d1 IH|d1 IH];
    intros [|d2|d2|d2|d2|d2|d2|d2|d2|d2|d2];
    cbn [NilEmpty.string_of_uint strcmp];
    try reflexivity; try (intros H; vm_compute in H; discriminate H);
    intros H; f_equal; apply IH; exact H.
Qed.

Lemma snprintf_u_inj (i j : nat) :
  strcmp (snprintf_u i) (snprintf_u j) = 0 -> i = j.
Proof.
  intros H. apply Unsigned.to_uint_inj, string_of_uint_inj, H.
Qed.

Lemma strdup_spec (ok : bool) (s : string) :
  strdup ok s = if ok then Some (strdup_copy s) else None.
Proof. reflexivity. Qed.

(** X13.  The ways the test of the tree ends, whatever numbers [rand]
    returns and whichever allocations fail.  Either [strdup] returned NULL
    in a step whose node was allocated, and that NULL was stored as an
    item: the run is not followed beyond that, since [strcmp] is not
    defined on it.  Or the test ends with the status 0, 1 or 3, never with
    2 (a lookup that disagrees with [members]) nor with 4: with 1 exactly
    when the container could not be made, and with 3 only if the
    allocation of a node failed in one of the [2 * N_MEMBERS] steps. *)
Theorem test_exit_status (new_ok : bool) (rand : nat -> Z)
        (malloc dup_ok : nat -> bool) :
  match test_main strcmp strdup_copy strdup snprintf_u new_ok rand malloc
                  dup_ok with
  | None =>
      new_ok = true
      /\ exists k, (k < 2 * N_MEMBERS)%nat
                   /\ malloc k = true /\ dup_ok k = false
  | Some (code, _) =>
      (code = 0 \/ code = 1 \/ code = 3)
      /\ (code = 1 <-> new_ok = false)
      /\ (code = 3 ->
          exists k, (k < 2 * N_MEMBERS)%nat /\ malloc k = false)
  end.
Proof.
  exact (test_main_codes string strcmp strdup_copy strcmp_antisym
           strcmp_trans strdup_same strdup strdup_spec snprintf_u
           snprintf_u_inj new_ok rand malloc dup_ok).
Qed.

(** X14.  Any number of steps of the test on a new tree end in one of
    three ways.  A step whose node was allocated got NULL from [strdup] and
    stored it as an item.  Or a step stopped the test with the status 3,
    after the allocation of a node failed.  Or the steps went through, and
    then a lookup of the text of an index below [N_MEMBERS] answers what
    [members] holds for that index, and the size of the tree is the number
    of indices that [members] marks. *)
Theorem test_tracks_members (rand : nat -> Z) (malloc dup_ok : nat -> bool)
        (n : nat) :
  match steps strcmp strdup_copy strdup snprintf_u rand malloc dup_ok n 0
              (mk_test (jsw_anew string) (repeat false N_MEMBERS)) with
  | None =>
      exists k, (k < n)%nat /\ malloc k = true /\ dup_ok k = false
  | Some (inl code) =>
      code = 3 /\ exists k, (k < n)%nat /\ malloc k = false
  | Some (inr st) =>
      (forall j, (j < N_MEMBERS)%nat ->
         lookup_item strcmp (cont st) (snprintf_u j)
         = nth j (members st) false)
      /\ jsw_asize (cont st) = Z.of_nat (count_true (members st))
      /\ length (elements (cont st)) = count_true (members st)
  end.
Proof.
  pose proof (steps_inv string strcmp strdup_copy strcmp_antisym
                strcmp_trans strdup_same strdup strdup_spec snprintf_u
                snprintf_u_inj rand malloc dup_ok n 0 _
                (test_inv_init string strcmp snprintf_u)) as H.
  pose proof (test_members string strcmp strdup_copy strcmp_antisym
                strcmp_trans strdup_same strdup strdup_spec snprintf_u
                snprintf_u_inj rand malloc dup_ok n) as Hm.
  destruct (steps strcmp strdup_copy strdup snprintf_u rand malloc dup_ok
              n 0 (mk_test (jsw_anew string) (repeat false N_MEMBERS)))
    as [[code|st]|].
  - destruct H as [-> (k & Hk & Hf)]. split; [reflexivity|].
    exists k. split; [lia | assumption].
  - apply Hm. reflexivity.
  - destruct H as (k & Hk & Hf). exists k. split; [lia | assumption].
Qed.


(** ** The further properties at work

    The tree is the one of [scenario]: its items are 1, 4, 5 and 8. *)

Lemma erase_removes_one_witness :
  balanced (root (run zcmp zdup (jsw_anew Z) scenario))
  /\ snd (jsw_aerase zcmp (run zcmp zdup (jsw_anew Z) scenario) 4) = 1
  /\ exists y A B,
       zcmp y 4 = 0
       /\ jsw_afind zcmp (run zcmp zdup (jsw_anew Z) scenario) 4 = Some y
       /\ elements (run zcmp zdup (jsw_anew Z) scenario) = A ++ y :: B
       /\ elements (fst (jsw_aerase zcmp (run zcmp zdup (jsw_anew Z)
           scenario) 4)) = A ++ B
       /\ released (fst (jsw_aerase zcmp (run zcmp zdup (jsw_anew Z)
           scenario) 4)) = released (run zcmp zdup (jsw_anew Z) scenario) ++
           [y]
       /\ freed (fst (jsw_aerase zcmp (run zcmp zdup (jsw_anew Z)
           scenario) 4)) = S (freed (run zcmp zdup (jsw_anew Z) scenario))
       /\ size (fst (jsw_aerase zcmp (run zcmp zdup (jsw_anew Z) scenario) 4))
          = (size (run zcmp zdup (jsw_anew Z) scenario) - 1) mod size_modulus.
Proof.
  assert (Hb : balanced (root (run zcmp zdup (jsw_anew Z) scenario))) by
      (vm_compute; intuition congruence).
  assert (He : snd (jsw_aerase zcmp (run zcmp zdup (jsw_anew Z) scenario)
      4) = 1) by reflexivity.
  split; [exact Hb|]. split; [exact He|].
  exact (erase_removes_one Z zcmp zdup (run zcmp zdup (jsw_anew Z)
      scenario) 4 Hb He).
Defined.

(** The cursor on 4, moved to 5 and back. *)
Lemma cursor_step_back_witness :
  snd (move (moves (fst (start (run zcmp zdup (jsw_anew Z) scenario)
      false)) [true]) true) <> None
  /\ move (fst (move (moves (fst (start (run zcmp zdup (jsw_anew Z)
      scenario) false)) [true]) true)) false
     = (moves (fst (start (run zcmp zdup (jsw_anew Z) scenario) false))
         [true], Some 4).
Proof.
  assert (H : snd (move (moves (fst (start (run zcmp zdup (jsw_anew Z)
      scenario) false)) [true]) true) <> None)
    by (vm_compute; discriminate).
  split; [exact H|].
  exact (cursor_step_back Z (run zcmp zdup (jsw_anew Z) scenario) false
      [true] true H).
Defined.

(** The cursor moved past 8, the last item, and then back. *)
Lemma cursor_end_is_final_witness :
  data (trav_it (moves (fst (start (run zcmp zdup (jsw_anew Z) scenario)
      false)) [true; true; true; true]))
  = None
  /\ move (moves (fst (start (run zcmp zdup (jsw_anew Z) scenario) false))
      [true; true; true; true]) false
     = (moves (fst (start (run zcmp zdup (jsw_anew Z) scenario) false))
         [true; true; true; true], None).
Proof.
  split; [reflexivity|].
  apply (cursor_end_is_final Z (run zcmp zdup (jsw_anew Z) scenario) false
      [true; true; true; true] false).
  reflexivity.
Defined.

(** A second 4 goes in front of the 4 that is stored. *)
Lemma insert_before_equals_witness :
  (forall x y, zcmp x y < 0 <-> 0 < zcmp y x)
  /\ (forall x y z, zcmp x y <= 0 -> zcmp y z <= 0 -> zcmp x z <= 0)
  /\ sorted zcmp (elements (run zcmp zdup (jsw_anew Z) scenario))
  /\ exists A B,
       elements (run zcmp zdup (jsw_anew Z) scenario) = A ++ B
       /\ elements (fst (jsw_ainsert zcmp zdup true (run zcmp zdup
           (jsw_anew Z) scenario) 4)) = A ++ zdup 4 :: B
       /\ Forall (fun a => zcmp a 4 < 0) A
       /\ Forall (fun b => 0 <= zcmp b 4) B.
Proof.
  assert (Hs : sorted zcmp (elements (run zcmp zdup (jsw_anew Z) scenario)))
    by (repeat constructor; vm_compute; discriminate).
  split; [exact zcmp_antisym|]. split; [exact zcmp_trans|].
  split; [exact Hs|].
  exact (insert_before_equals Z zcmp zdup zcmp_antisym zcmp_trans (run
      zcmp zdup (jsw_anew Z) scenario) 4 Hs).
Defined.

Lemma insert_then_find_witness :
  (forall x y, zcmp x y < 0 <-> 0 < zcmp y x)
  /\ (forall x y z, zcmp x y <= 0 -> zcmp y z <= 0 -> zcmp x z <= 0)
  /\ (forall x, zcmp (zdup x) x = 0)
  /\ sorted zcmp (elements (run zcmp zdup (jsw_anew Z) scenario))
  /\ exists y,
       jsw_afind zcmp (fst (jsw_ainsert zcmp zdup true (run zcmp zdup
           (jsw_anew Z) scenario) 7)) 7 = Some y
       /\ In y (elements (fst (jsw_ainsert zcmp zdup true (run zcmp zdup
           (jsw_anew Z) scenario) 7)))
       /\ zcmp y 7 = 0.
Proof.
  assert (Hs : sorted zcmp (elements (run zcmp zdup (jsw_anew Z) scenario)))
    by (repeat constructor; vm_compute; discriminate).
  split; [exact zcmp_antisym|]. split; [exact zcmp_trans|].
  split; [exact zdup_same|]. split; [exact Hs|].
  exact (insert_then_find Z zcmp zdup zcmp_antisym zcmp_trans zdup_same
           (run zcmp zdup (jsw_anew Z) scenario) 7 Hs).
Defined.

(** 7 inserted, or erased in vain: 4 is found as before. *)
Lemma other_keys_undisturbed_witness :
  (forall x y, zcmp x y < 0 <-> 0 < zcmp y x)
  /\ (forall x y z, zcmp x y <= 0 -> zcmp y z <= 0 -> zcmp x z <= 0)
  /\ (forall x, zcmp (zdup x) x = 0)
  /\ balanced (root (run zcmp zdup (jsw_anew Z) scenario))
  /\ sorted zcmp (elements (run zcmp zdup (jsw_anew Z) scenario))
  /\ zcmp 7 4 <> 0
  /\ (jsw_afind zcmp (fst (jsw_ainsert zcmp zdup true (run zcmp zdup
      (jsw_anew Z) scenario) 7)) 4 = None
      <-> jsw_afind zcmp (run zcmp zdup (jsw_anew Z) scenario) 4 = None)
  /\ (jsw_afind zcmp (fst (jsw_aerase zcmp (run zcmp zdup (jsw_anew Z)
      scenario) 7)) 4 = None
      <-> jsw_afind zcmp (run zcmp zdup (jsw_anew Z) scenario) 4 = None)
  /\ count_eq zcmp 4 (elements (fst (jsw_ainsert zcmp zdup true (run zcmp
      zdup (jsw_anew Z) scenario) 7)))
     = count_eq zcmp 4 (elements (run zcmp zdup (jsw_anew Z) scenario))
  /\ count_eq zcmp 4 (elements (fst (jsw_aerase zcmp (run zcmp zdup
      (jsw_anew Z) scenario) 7)))
     = count_eq zcmp 4 (elements (run zcmp zdup (jsw_anew Z) scenario)).
Proof.
  assert (Hb : balanced (root (run zcmp zdup (jsw_anew Z) scenario))) by
      (vm_compute; intuition congruence).
  assert (Hs : sorted zcmp (elements (run zcmp zdup (jsw_anew Z) scenario)))
    by (repeat constructor; vm_compute; discriminate).
  assert (Hn : zcmp 7 4 <> 0) by (vm_compute; discriminate).
  split; [exact zcmp_antisym|]. split; [exact zcmp_trans|].
  split; [exact zdup_same|]. split; [exact Hb|]. split; [exact Hs|].
  split; [exact Hn|].
  exact (other_keys_undisturbed Z zcmp zdup zcmp_antisym zcmp_trans
           zdup_same true (run zcmp zdup (jsw_anew Z) scenario) 7 4 Hb Hs Hn).
Defined.

Lemma insert_then_erase_witness :
  (forall x y, zcmp x y < 0 <-> 0 < zcmp y x)
  /\ (forall x y z, zcmp x y <= 0 -> zcmp y z <= 0 -> zcmp x z <= 0)
  /\ (forall x, zcmp (zdup x) x = 0)
  /\ balanced (root (run zcmp zdup (jsw_anew Z) scenario))
  /\ sorted zcmp (elements (run zcmp zdup (jsw_anew Z) scenario))
  /\ (forall y, In y (elements (run zcmp zdup (jsw_anew Z) scenario)) ->
      zcmp y 7 <> 0)
  /\ snd (jsw_aerase zcmp (fst (jsw_ainsert zcmp zdup true (run zcmp zdup
      (jsw_anew Z) scenario) 7)) 7) = 1
  /\ elements (fst (jsw_aerase zcmp (fst (jsw_ainsert zcmp zdup true (run
      zcmp zdup (jsw_anew Z) scenario) 7)) 7))
     = elements (run zcmp zdup (jsw_anew Z) scenario)
  /\ size (fst (jsw_aerase zcmp (fst (jsw_ainsert zcmp zdup true (run zcmp
      zdup (jsw_anew Z) scenario) 7)) 7))
     = size (run zcmp zdup (jsw_anew Z) scenario) mod size_modulus
  /\ released
       (fst (jsw_aerase zcmp (fst (jsw_ainsert zcmp zdup true (run zcmp
           zdup (jsw_anew Z) scenario) 7)) 7))
     = released (run zcmp zdup (jsw_anew Z) scenario) ++ [zdup 7]
  /\ freed (fst (jsw_aerase zcmp (fst (jsw_ainsert zcmp zdup true (run
      zcmp zdup (jsw_anew Z) scenario) 7)) 7))
     = S (freed (run zcmp zdup (jsw_anew Z) scenario)).
Proof.
  assert (Hb : balanced (root (run zcmp zdup (jsw_anew Z) scenario))) by
      (vm_compute; intuition congruence).
  assert (Hs : sorted zcmp (elements (run zcmp zdup (jsw_anew Z) scenario)))
    by (repeat constructor; vm_compute; discriminate).
  assert (Hn : forall y, In y (elements (run zcmp zdup (jsw_anew Z)
      scenario)) -> zcmp y 7 <> 0).
  { intros y Hin. vm_compute in Hin.
    destruct Hin as [<-|[<-|[<-|[<-|[]]]]]; vm_compute; discriminate. }
  split; [exact zcmp_antisym|]. split; [exact zcmp_trans|].
  split; [exact zdup_same|]. split; [exact Hb|]. split; [exact Hs|].
  split; [exact Hn|].
  exact (insert_then_erase Z zcmp zdup zcmp_antisym zcmp_trans zdup_same
           (run zcmp zdup (jsw_anew Z) scenario) 7 Hb Hs Hn).
Defined.

Lemma paths_fit_witness :
  Z.of_nat (count_nodes (root (run zcmp zdup (jsw_anew Z) scenario))) < 2
      ^ 32 - 1
  /\ (length (insert_path zcmp (root (run zcmp zdup (jsw_anew Z)
      scenario)) 7%Z []) <= HEIGHT_LIMIT)%nat
  /\ (S (height (root (run zcmp zdup (jsw_anew Z) scenario))) <=
      HEIGHT_LIMIT)%nat
  /\ (length (trav_path (moves (fst (start (run zcmp zdup (jsw_anew Z)
      scenario) false)) [true; true]))
      <= HEIGHT_LIMIT)%nat.
Proof.
  assert (H : Z.of_nat (count_nodes (root (run zcmp zdup (jsw_anew Z)
      scenario))) < 2 ^ 32 - 1)
    by (vm_compute; reflexivity).
  split; [exact H|].
  destruct (paths_fit Z zcmp zdup scenario 7 false [true; true] H)
    as (H1 & H2 & _ & H4).
  split; [exact H1|]. split; [exact H2 | exact H4].
Defined.

(** The cursor on 4: 1 before it, 5 and 8 after it. *)
Lemma cursor_neighbours_witness :
  data (trav_it (moves (fst (start (run zcmp zdup (jsw_anew Z) scenario)
                              false)) [true]))
  = Some 4
  /\ exists A B,
       elements (run zcmp zdup (jsw_anew Z) scenario) = A ++ 4 :: B
       /\ snd (jsw_atnext
                 (moves (fst (start (run zcmp zdup (jsw_anew Z) scenario)
                               false)) [true]))
          = hd_error B
       /\ snd (jsw_atprev
                 (moves (fst (start (run zcmp zdup (jsw_anew Z) scenario)
                               false)) [true]))
          = hd_error (rev A).
Proof.
  split; [reflexivity|].
  apply (cursor_neighbours Z (run zcmp zdup (jsw_anew Z) scenario) false
           [true] 4).
  reflexivity.
Defined.

(** ** The scenarios of the description, run *)

Example scenario_forward :
  forward (run zcmp zdup (jsw_anew Z)
             [Insert true 5; Insert true 3; Insert true 8; Insert true 1;
              Insert true 4]) 5
  = Some [1; 3; 4; 5; 8].
Proof. reflexivity. Qed.

Example scenario_erase :
  jsw_afind zcmp (run zcmp zdup (jsw_anew Z) scenario) 3 = None
  /\ jsw_afind zcmp (run zcmp zdup (jsw_anew Z) scenario) 4 = Some 4
  /\ jsw_asize (run zcmp zdup (jsw_anew Z) scenario) = 4
  /\ released (run zcmp zdup (jsw_anew Z) scenario) = [3].
Proof. repeat split. Qed.

Example scenario_twice :
  jsw_asize (run zcmp zdup (jsw_anew Z) [Insert true 7; Insert true 7]) = 2
  /\ elements (run zcmp zdup (jsw_anew Z) [Insert true 7; Insert true 7])
     = [7; 7].
Proof. split; reflexivity. Qed.

Example scenario_destroy :
  released (jsw_adelete (run zcmp zdup (jsw_anew Z) scenario))
  = [3; 1; 4; 5; 8]
  /\ freed (jsw_adelete (run zcmp zdup (jsw_anew Z) scenario)) = 7%nat.
Proof. split; reflexivity. Qed.
